(** * FFTHomPy: iterative solvers on low-rank tensors

    A shallow embedding of [ffthompy/sparse/solver.py]: the four solver
    drivers [cheby2TERM], [minimal_residual], [richardson] and
    [richardson_debug], with the part of Python 3 they rely on
    (exceptions, dictionaries of parameters, truthiness, comparisons
    between values of different types).

    Conventions of the model.
    - Python floats are exact rationals ([Q]); rounding, infinities and
      NaN are outside the model. Dividing by a zero float raises
      [ZeroDivisionError], as it does for Python's own [float].
    - The low-rank tensor type and its arithmetic ([SparseTensor]) live
      outside the file under study: they are the operations of the class
      [TensorOps], total and pure.
    - The operator [Afun] and the [callback] are callables handed in by
      the caller: they may raise.
    - [while] loops run on fuel; the fuel each solver takes is read off
      [par['maxiter']] and is shown to be enough. *)

From Stdlib Require Import ZArith QArith Qabs Qround Lia Lqa.
From stdpp Require Import base option list strings gmap.

Local Open Scope Q_scope.

(** ** Exceptions and outcomes *)

Inductive exn : Set :=
  | NotImplementedError
  | ValueError
  | TypeError
  | KeyError
  | IndexError
  | ZeroDivisionError
  | UnboundLocalError.

(** What running a piece of Python gives: a value, an exception, or (in
    the model only) a loop that used up its fuel. *)
Inductive outcome (A : Type) : Type :=
  | Ok (a : A)
  | Raise (e : exn)
  | OutOfFuel.

Arguments Ok {A} a.
Arguments Raise {A} e.
Arguments OutOfFuel {A}.

Definition bind {A B : Type} (m : outcome A) (k : A -> outcome B) : outcome B :=
  match m with
  | Ok a => k a
  | Raise e => Raise e
  | OutOfFuel => OutOfFuel
  end.

Notation "'let*' x ':=' m 'in' k" := (bind m (fun x => k))
  (at level 10, x pattern, m at level 100, k at level 200).

(** ** Python values held by a parameter dictionary *)

#[local] Unset Elimination Schemes.
Inductive pyval : Type :=
  | PyNone
  | PyBool (b : bool)
  | PyInt (z : Z)
  | PyFloat (q : Q)
  | PyStr (s : string)
  | PyTuple (l : list pyval)
  | PyList (l : list pyval).
#[local] Set Elimination Schemes.

(** [bool(v)] *)
Definition truthy (v : pyval) : bool :=
  match v with
  | PyNone => false
  | PyBool b => b
  | PyInt z => negb (z =? 0)%Z
  | PyFloat q => negb (Qeq_bool q 0)
  | PyStr s => negb (String.eqb s "")
  | PyTuple l | PyList l => match l with [] => false | _ => true end
  end.

(** [isinstance(v, float)]: [bool] and [int] are not floats. *)
Definition is_float (v : pyval) : bool :=
  match v with
  | PyFloat _ => true
  | _ => false
  end.

(** The real number a numeric value stands for in arithmetic and in
    comparisons with a float; [None] for the values that are not numbers. *)
Definition as_number (v : pyval) : option Q :=
  match v with
  | PyBool b => Some (if b then 1 else 0)
  | PyInt z => Some (inject_Z z)
  | PyFloat q => Some q
  | _ => None
  end.

Definition Qltb (a b : Q) : bool := negb (Qle_bool b a).

(** [a < v] and [a > v] for a float (or int) [a]: a [TypeError] unless [v]
    is a number. *)
Definition py_lt (a : Q) (v : pyval) : outcome bool :=
  match as_number v with
  | Some q => Ok (Qltb a q)
  | None => Raise TypeError
  end.

Definition py_gt (a : Q) (v : pyval) : outcome bool :=
  match as_number v with
  | Some q => Ok (Qltb q a)
  | None => Raise TypeError
  end.

(** [v == a] for a float [a]: values of other types are just unequal. *)
Definition py_eq_float (v : pyval) (a : Q) : bool :=
  match as_number v with
  | Some q => Qeq_bool q a
  | None => false
  end.

(** [v < a] for a float [a]. *)
Definition py_lt_float (v : pyval) (a : Q) : outcome bool :=
  match as_number v with
  | Some q => Ok (Qltb q a)
  | None => Raise TypeError
  end.

(** [l < h] between two lists, [h] a list of floats: the first pair of
    unequal items decides, else the lengths. *)
Fixpoint list_lt (l : list pyval) (h : list Q) : outcome bool :=
  match l, h with
  | [], [] => Ok false
  | [], _ :: _ => Ok true
  | _ :: _, [] => Ok false
  | v :: l', a :: h' => if py_eq_float v a then list_lt l' h' else py_lt_float v a
  end.

(** [v < h] where [h] is a list of floats: only a list is comparable with
    a list. *)
Definition py_lt_list (v : pyval) (h : list Q) : outcome bool :=
  match v with
  | PyList l => list_lt l h
  | _ => Raise TypeError
  end.

(** [e[i]] for a parameter value [e]. *)
Definition py_index (e : pyval) (i : nat) : outcome pyval :=
  match e with
  | PyTuple l | PyList l =>
      match l !! i with
      | Some v => Ok v
      | None => Raise IndexError
      end
  | PyStr s =>
      match String.get i s with
      | Some a => Ok (PyStr (String a EmptyString))
      | None => Raise IndexError
      end
  | _ => Raise TypeError
  end.

(** [a / b] on floats. *)
Definition pydiv (a b : Q) : outcome Q :=
  if Qeq_bool b 0 then Raise ZeroDivisionError else Ok (a / b).

(** [h[i]] on a list of floats, [i >= 0]. *)
Definition hist_index (h : list Q) (i : nat) : outcome Q :=
  match h !! i with
  | Some a => Ok a
  | None => Raise IndexError
  end.

(** Reading a local variable that may not have been assigned yet. *)
Definition read_local {A : Type} (o : option A) : outcome A :=
  match o with
  | Some a => Ok a
  | None => Raise UnboundLocalError
  end.

(** ** Parameter dictionaries *)

(** [par[k]]: subscripting [None] is a [TypeError], a missing key a
    [KeyError]. *)
Definition getitem (par : option (gmap string pyval)) (k : string) : outcome pyval :=
  match par with
  | None => Raise TypeError
  | Some m =>
      match m !! k with
      | Some v => Ok v
      | None => Raise KeyError
      end
  end.

(** [if k not in par: par[k] = v] *)
Definition setdefault (k : string) (v : pyval) (m : gmap string pyval) : gmap string pyval :=
  match m !! k with
  | Some _ => m
  | None => <[k := v]> m
  end.

(** The number of iterations a loop guarded by [kit < par['maxiter']] can
    make from [kit = 0]. *)
Definition maxiter_fuel (par : option (gmap string pyval)) : nat :=
  match par with
  | Some m =>
      match m !! "maxiter" with
      | Some v =>
          match as_number v with
          | Some q => Z.to_nat (Qceiling q)
          | None => O
          end
      | None => O
      end
  | None => O
  end.

(** ** [while] loops

    One pass of a loop body either falls through to the next test of the
    guard or leaves the loop by [break]. *)

Inductive flow (S : Type) : Type :=
  | Next (s : S)
  | Break (s : S).

Arguments Next {S} s.
Arguments Break {S} s.

Section While.

Context {S : Type}.
Variable guard : S -> outcome bool.
Variable body : S -> outcome (flow S).

Fixpoint while (fuel : nat) (s : S) : outcome S :=
  let* g := guard s in
  if g then
    match fuel with
    | O => OutOfFuel
    | Datatypes.S fuel =>
        let* f := body s in
        match f with
        | Next s' => while fuel s'
        | Break s' => Ok s'
        end
    end
  else Ok s.

End While.

(** ** The tensor capability

    What the solvers ask of a [SparseTensor]: the arithmetic operators,
    the two norms, the mean, the inner product, rank truncation, and the
    constant field of ones brought to the representation of the iterate
    ([SparseTensor(kind=x.kind, val=np.ones(...), rank=1).fourier().enlarge(x.N)]). *)

Class TensorOps (T : Type) : Type := {
  tadd : T -> T -> T;                         (* X + Y *)
  tsub : T -> T -> T;                         (* X - Y *)
  tneg : T -> T;                              (* -X *)
  tscale : T -> Q -> T;                       (* X * s and s * X *)
  tnorm : T -> Q;                             (* X.norm() *)
  tnorm_fourier : T -> Q;                     (* X.norm(normal_domain=False) *)
  tmean : T -> Q;                             (* X.mean() *)
  tinner : T -> T -> Q;                       (* X.inner(Y) *)
  truncate : option nat -> option Q -> T -> T; (* X.truncate(rank=rank, tol=tol) *)
  const_field : T -> T                        (* FM, built from x.kind and x.N *)
}.

(** The residual history a solver hands back: a list of floats, or the
    integer that [cheby2TERM] puts in its place. *)
Inductive norm_res_t : Type :=
  | NormList (l : list Q)
  | NormScalar (z : Z).

(** The pair [(x, res)] a solver returns, with the lines it printed. *)
Record solution (T : Type) : Type := mkSolution {
  sol_x : T;
  sol_norm_res : norm_res_t;
  sol_kit : nat;
  sol_printed : list string
}.

Arguments mkSolution {T} _ _ _ _.
Arguments sol_x {T} _.
Arguments sol_norm_res {T} _.
Arguments sol_kit {T} _.
Arguments sol_printed {T} _.

Section Solvers.

Context {T : Type} `{TensorOps T}.

(** The arguments every solver takes. *)
Variable Afun : T -> outcome T.
Variable B : T.
Variable x0 : option T.
Variable rank : option nat.
Variable tol : option Q.

(** [x = (-FM*x.mean()+x).truncate(rank=rank, tol=tol)] *)
Definition mean_correct (FM x : T) : T :=
  truncate rank tol (tadd (tscale (tneg FM) (tmean x)) x).

(** [if x0 is None: x = d else: x = x0] *)
Definition initial_guess (d : T) : T :=
  match x0 with
  | None => d
  | Some x => x
  end.

(** [a and b] in the test of an [if], with [b] a comparison. *)
Definition py_and (a : pyval) (b : outcome bool) : outcome bool :=
  if truthy a then b else Ok false.

(** [norm_res > par['tol'] and res['kit'] < par['maxiter']] *)
Definition loop_guard (par : option (gmap string pyval)) (norm_res : Q) (kit : nat)
  : outcome bool :=
  let* t := getitem par "tol" in
  let* g := py_gt norm_res t in
  if g then
    let* m := getitem par "maxiter" in
    py_lt (inject_Z (Z.of_nat kit)) m
  else Ok false.

(** ** cheby2TERM *)

(** Lines 24-33: the defaults, and the spectral range the method needs. *)
Definition cheby_params (par : option (gmap string pyval))
  : outcome (gmap string pyval * pyval) :=
  let par := match par with None => ∅ | Some m => m end in
  let par := setdefault "tol" (PyFloat (1 # 1000000)) par in
  let par := setdefault "maxiter" (PyFloat 10000000) par in
  match par !! "eigrange" with
  | None => Raise NotImplementedError
  | Some Egv => Ok (par, Egv)
  end.

(** The local variables of [cheby2TERM] that the loop reads and writes;
    [p] and [w] are unbound until the first pass assigns them. *)
Record cheby_state : Type := mkCheby {
  ch_kit : nat;
  ch_hist : list Q;
  ch_x : T;
  ch_r : T;
  ch_v : T;
  ch_p : option Q;
  ch_w : option Q
}.

(** Lines 38-50: the initial iterate [x], the residual [r], its norm [r0]
    and the history with its first entry. The reciprocal [Ib] is taken
    before [bnrm2] is tested, and [bnrm2] is not read again. *)
Definition cheby_init : outcome (T * T * Q * list Q) :=
  let bnrm2 := tnorm B in
  let* Ib := pydiv 1 bnrm2 in
  let bnrm2 := if Qeq_bool bnrm2 0 then 1 else bnrm2 in
  let x := initial_guess B in
  let* Ax := Afun x in
  let r := tsub B Ax in
  let r0 := tnorm r in
  Ok (x, r, r0, [Ib * r0]).

(** Lines 58-59. *)
Definition cheby_dc (Egv : pyval) : outcome (Q * Q) :=
  let* e1 := py_index Egv 1 in
  let* e0 := py_index Egv 0 in
  match as_number e1, as_number e0 with
  | Some l1, Some l0 => Ok ((l1 + l0) / 2, (l1 - l0) / 2)
  | _, _ => Raise TypeError
  end.

(** Lines 64-72: the coefficients of pass number [kit]. *)
Definition cheby_coeffs (d c : Q) (kit : nat) (w : option Q) : outcome (Q * Q) :=
  if (kit =? 1)%nat then
    let p := 0 in
    let* w := pydiv 1 d in
    Ok (p, w)
  else if (kit =? 2)%nat then
    let* q1 := pydiv c d in
    let* q2 := pydiv c d in
    let p := - (1 / 2) * q1 * q2 in
    let* t := pydiv (c * c / 2) d in
    let* w := pydiv 1 (d - t) in
    Ok (p, w)
  else
    let* w0 := read_local w in
    let p := - (c * c / 4) * w0 * w0 in
    let* w := pydiv 1 (d - c * c * w0 / 4) in
    Ok (p, w).

(** Line 61: the loop guard. *)
Definition cheby_guard (par : gmap string pyval) (s : cheby_state) : outcome bool :=
  let* a := hist_index (ch_hist s) (ch_kit s) in
  loop_guard (Some par) a (ch_kit s).

(** Lines 62-85: one pass of the loop body. *)
Definition cheby_iter (callback : option (T -> outcome unit)) (FM : T) (d c r0 : Q)
    (s : cheby_state) : outcome (flow cheby_state) :=
  let kit := S (ch_kit s) in
  let x_prev := ch_x s in
  let* pw := cheby_coeffs d c kit (ch_w s) in
  let (p, w) := pw in
  let v := truncate rank tol (tsub (ch_r s) (tscale (ch_v s) p)) in
  let x := tadd x_prev (tscale v w) in
  let x := mean_correct FM x in
  let* Ax := Afun x in
  let r := tsub B Ax in
  let* Ir0 := pydiv 1 r0 in
  let hist := ch_hist s ++ [Ir0 * tnorm r] in
  let* _ := match callback with
            | Some cb => cb x
            | None => Ok tt
            end in
  Ok (Next (mkCheby kit hist x r v (Some p) (Some w))).

(** Lines 87-90: the message of the closing report. The tolerance is
    compared with the list [res['norm_res']] itself. *)
Definition cheby_report (par : gmap string pyval) (hist : list Q) : outcome string :=
  let* t := getitem (Some par) "tol" in
  let* b := py_lt_list t hist in
  Ok (if b then "Chebyshev solver does not converges!"%string
      else "Chebyshev solver converges."%string).

(** Lines 55-94: what follows the early return. *)
Definition cheby_run (callback : option (T -> outcome unit)) (par : gmap string pyval)
    (Egv : pyval) (x r : T) (r0 : Q) (hist : list Q) : outcome (solution T) :=
  let FM := const_field x in
  let* dc := cheby_dc Egv in
  let (d, c) := dc in
  let v := tscale x 0 in
  let* s := while (cheby_guard par) (cheby_iter callback FM d c r0)
              (maxiter_fuel (Some par)) (mkCheby 0 hist x r v None None) in
  let* msg := cheby_report par (ch_hist s) in
  let norm_res := if (ch_kit s =? 0)%nat then NormScalar 0 else NormList (ch_hist s) in
  Ok (mkSolution (ch_x s) norm_res (ch_kit s) [msg]).

Definition cheby2TERM (par : option (gmap string pyval))
    (callback : option (T -> outcome unit)) : outcome (solution T) :=
  let* pe := cheby_params par in
  let (par, Egv) := pe in
  let* i := cheby_init in
  let '(x, r, r0, hist) := i in
  let* a := hist_index hist 0 in
  let* t := getitem (Some par) "tol" in
  let* early := py_lt a t in
  if early then Ok (mkSolution x (NormList hist) 0 [])
  else cheby_run callback par Egv x r r0 hist.

(** ** minimal_residual *)

Record mr_state : Type := mkMR {
  mr_kit : nat;
  mr_hist : list Q;
  mr_x : T;
  mr_residuum : T;
  mr_beta : T;
  mr_norm_res : Q
}.

(** Lines 104-105: the norm in use. *)
Definition mr_norm (norm : option (T -> Q)) : T -> Q :=
  match norm with
  | None => tnorm_fourier
  | Some f => f
  end.

(** Lines 100-114. *)
Definition mr_init (norm : option (T -> Q)) : outcome mr_state :=
  let x := initial_guess B in
  let norm := mr_norm norm in
  let* Ax := Afun x in
  let residuum := tsub B Ax in
  let hist := [norm residuum] in
  let* beta := Afun residuum in
  let* norm_res := hist_index hist 0 in
  Ok (mkMR 0 hist x residuum beta norm_res).

(** Line 116. *)
Definition mr_guard (par : option (gmap string pyval)) (s : mr_state) : outcome bool :=
  loop_guard par (mr_norm_res s) (mr_kit s).

(** Lines 119-128: the step size. *)
Definition mr_omega (par : option (gmap string pyval)) (norm : T -> Q) (s : mr_state)
  : outcome Q :=
  let* ao := getitem par "approx_omega" in
  if truthy ao then pydiv (mr_norm_res s) (norm (mr_beta s))
  else
    let* omega := pydiv (tinner (mr_beta s) (mr_residuum s)) (norm (mr_beta s) ^ 2) in
    if Qltb (Qabs omega) (1 # 10) then pydiv (mr_norm_res s) (norm (mr_beta s))
    else Ok omega.

(** Lines 117-148: one pass of the loop body. *)
Definition mr_iter (par : option (gmap string pyval)) (norm : T -> Q) (FM : T)
    (s : mr_state) : outcome (flow mr_state) :=
  let kit := S (mr_kit s) in
  let* omega := mr_omega par norm s in
  let x := tadd (mr_x s) (tscale (mr_residuum s) omega) in
  let x := mean_correct FM x in
  let* residuum :=
    if (kit mod 10 =? 0)%nat then
      let* Ax := Afun x in Ok (tsub B Ax)
    else Ok (truncate rank tol (tsub (mr_residuum s) (tscale (mr_beta s) omega))) in
  let norm_res := norm residuum in
  let* dc := getitem par "divcrit" in
  let* diverging :=
    py_and dc (let* prev := hist_index (mr_hist s) (kit - 1) in Ok (Qltb prev norm_res)) in
  if diverging then Ok (Break (mkMR kit (mr_hist s) x residuum (mr_beta s) norm_res))
  else
    let hist := mr_hist s ++ [norm_res] in
    let* beta := Afun residuum in
    Ok (Next (mkMR kit hist x residuum beta norm_res)).

Definition minimal_residual (par : option (gmap string pyval)) (norm : option (T -> Q))
  : outcome (solution T) :=
  let* s0 := mr_init norm in
  let FM := const_field (mr_x s0) in
  let* s := while (mr_guard par) (mr_iter par (mr_norm norm) FM) (maxiter_fuel par) s0 in
  Ok (mkSolution (mr_x s) (NormList (mr_hist s)) (mr_kit s) []).

(** ** richardson *)

(** Lines 153-156 and 188-191: the step size. *)
Definition richardson_omega (par : option (gmap string pyval)) : outcome Q :=
  let* alpha := getitem par "alpha" in
  if is_float alpha then
    match as_number alpha with
    | Some a => pydiv 1 a
    | None => Raise TypeError
    end
  else Raise ValueError.

Record ri_state : Type := mkRI {
  ri_kit : nat;
  ri_hist : list Q;
  ri_x : T;
  ri_norm_res : Q
}.

(** Lines 164-165 and 201-202: the norm in use. *)
Definition ri_norm (norm : option (T -> Q)) : T -> Q :=
  match norm with
  | None => tnorm
  | Some f => f
  end.

(** Lines 157-172. *)
Definition ri_init (norm : T -> Q) (omega : Q) : ri_state :=
  let x := initial_guess (tscale B omega) in
  let hist := [norm B] in
  mkRI 0 hist x 1000000000000000.

Definition ri_guard (par : option (gmap string pyval)) (s : ri_state) : outcome bool :=
  loop_guard par (ri_norm_res s) (ri_kit s).

(** Lines 174-183: one pass of the loop body. *)
Definition ri_iter (par : option (gmap string pyval)) (norm : T -> Q) (FM : T) (omega : Q)
    (s : ri_state) : outcome (flow ri_state) :=
  let kit := S (ri_kit s) in
  let* Ax := Afun (ri_x s) in
  let residuum := tsub B Ax in
  let norm_res := norm residuum in
  let* dc := getitem par "divcrit" in
  let* diverging :=
    py_and dc (let* prev := hist_index (ri_hist s) (kit - 1) in Ok (Qltb prev norm_res)) in
  if diverging then Ok (Break (mkRI kit (ri_hist s) (ri_x s) norm_res))
  else
    let x := tadd (ri_x s) (tscale residuum omega) in
    let x := mean_correct FM x in
    Ok (Next (mkRI kit (ri_hist s ++ [norm_res]) x norm_res)).

(** Lines 157-185: the solver once the step size is known. *)
Definition richardson_run (par : option (gmap string pyval)) (norm : option (T -> Q))
    (omega : Q) : outcome (solution T) :=
  let s0 := ri_init (ri_norm norm) omega in
  let FM := const_field (ri_x s0) in
  let* s := while (ri_guard par) (ri_iter par (ri_norm norm) FM omega) (maxiter_fuel par) s0 in
  Ok (mkSolution (ri_x s) (NormList (ri_hist s)) (ri_kit s) []).

Definition richardson (par : option (gmap string pyval)) (norm : option (T -> Q))
  : outcome (solution T) :=
  let* omega := richardson_omega par in
  richardson_run par norm omega.

(** ** richardson_debug

    The [Timer] objects only measure time; they leave no trace here. *)

(** Lines 206-219: one pass of the loop body. *)
Definition rd_iter (norm : T -> Q) (omega : Q) (s : ri_state) : outcome (flow ri_state) :=
  let kit := S (ri_kit s) in
  let* Afunx := Afun (ri_x s) in
  let residuum := tsub B Afunx in
  let x := truncate rank tol (tadd (ri_x s) (tscale residuum omega)) in
  let norm_res := norm residuum in
  Ok (Next (mkRI kit (ri_hist s ++ [norm_res]) x norm_res)).

(** Lines 192-222: the solver once the step size is known. *)
Definition richardson_debug_run (par : option (gmap string pyval)) (norm : option (T -> Q))
    (omega : Q) : outcome (solution T) :=
  let x := initial_guess (tscale B omega) in
  let x := truncate rank tol x in
  let norm := ri_norm norm in
  let* s := while (ri_guard par) (rd_iter norm omega) (maxiter_fuel par)
              (mkRI 0 [] x 1000000000000000) in
  let* Ax := Afun (ri_x s) in
  let hist := ri_hist s ++ [norm (tsub B Ax)] in
  Ok (mkSolution (ri_x s) (NormList hist) (ri_kit s) []).

Definition richardson_debug (par : option (gmap string pyval)) (norm : option (T -> Q))
  : outcome (solution T) :=
  let* omega := richardson_omega par in
  richardson_debug_run par norm omega.

End Solvers.

Arguments cheby_state : clear implicits.
Arguments mr_state : clear implicits.
Arguments ri_state : clear implicits.

(** ** A two-point grid

    The smallest tensor capability on which the mean correction does
    something: fields on two grid points, kept in lowest terms, with the
    1-norm, the arithmetic mean and no loss in truncation. It serves to
    run the solvers on concrete data. *)

Module Grid2.

Definition vec : Type := (Q * Q)%type.

Definition vadd (a b : vec) : vec := (Qred (a.1 + b.1), Qred (a.2 + b.2)).
Definition vsub (a b : vec) : vec := (Qred (a.1 - b.1), Qred (a.2 - b.2)).
Definition vneg (a : vec) : vec := (Qred (- a.1), Qred (- a.2)).
Definition vscale (a : vec) (s : Q) : vec := (Qred (a.1 * s), Qred (a.2 * s)).
Definition vnorm (a : vec) : Q := Qred (Qabs a.1 + Qabs a.2).
Definition vmean (a : vec) : Q := Qred ((a.1 + a.2) / 2).
Definition vinner (a b : vec) : Q := Qred (a.1 * b.1 + a.2 * b.2).
Definition vtruncate (rank : option nat) (tol : option Q) (a : vec) : vec := a.
Definition vones (a : vec) : vec := (1, 1).

#[export] Instance grid2_ops : TensorOps vec := {|
  tadd := vadd;
  tsub := vsub;
  tneg := vneg;
  tscale := vscale;
  tnorm := vnorm;
  tnorm_fourier := vnorm;
  tmean := vmean;
  tinner := vinner;
  truncate := vtruncate;
  const_field := vones
|}.

(** A truncation that loses something: with a tolerance [t > 0] each
    value is rounded down to a multiple of [t]. *)
Definition vround (tol : option Q) (a : Q) : Q :=
  match tol with
  | Some t => if Qltb 0 t then Qred (t * inject_Z (Qfloor (a / t))) else a
  | None => a
  end.

Definition vtruncate_lossy (rank : option nat) (tol : option Q) (a : vec) : vec :=
  (vround tol a.1, vround tol a.2).

(** The same grid with the lossy truncation; not an instance, it is named
    where it is meant. *)
Definition grid2_lossy_ops : TensorOps vec := {|
  tadd := vadd;
  tsub := vsub;
  tneg := vneg;
  tscale := vscale;
  tnorm := vnorm;
  tnorm_fourier := vnorm;
  tmean := vmean;
  tinner := vinner;
  truncate := vtruncate_lossy;
  const_field := vones
|}.

(** The operator with eigenvalues [l1] and [l2] on the two points. *)
Definition diag (l1 l2 : Q) (a : vec) : outcome vec :=
  Ok (Qred (l1 * a.1), Qred (l2 * a.2)).

(** An operator that fails whenever it is applied. *)
Definition broken (a : vec) : outcome vec := Raise ValueError.

(** [{'tol': tol, 'maxiter': maxiter}] *)
Definition base_par (tol : Q) (maxiter : Z) : gmap string pyval :=
  <["tol" := PyFloat tol]> (<["maxiter" := PyInt maxiter]> ∅).

(** [{'tol': tol, 'maxiter': maxiter, 'eigrange': (lmin, lmax)}] *)
Definition cheby_par (tol : Q) (maxiter : Z) (lmin lmax : Q) : gmap string pyval :=
  <["eigrange" := PyTuple [PyFloat lmin; PyFloat lmax]]> (base_par tol maxiter).

(** [{'tol': tol, 'maxiter': maxiter, 'approx_omega': ao, 'divcrit': dc}] *)
Definition mr_par (tol : Q) (maxiter : Z) (ao dc : bool) : gmap string pyval :=
  <["approx_omega" := PyBool ao]> (<["divcrit" := PyBool dc]> (base_par tol maxiter)).

(** [{'tol': tol, 'maxiter': maxiter, 'alpha': alpha, 'divcrit': dc}] *)
Definition ri_par (tol : Q) (maxiter : Z) (alpha : pyval) (dc : bool) : gmap string pyval :=
  <["alpha" := alpha]> (<["divcrit" := PyBool dc]> (base_par tol maxiter)).

(** The state of the loop of [cheby2TERM] after two passes, for the
    operator [diag 1 3], [B = (1, -1)], [x0 = (0, 0)] and
    [eigrange = (1.0, 3.0)], that is [d = 2] and [c = 1]. *)
Definition cheby_two_passes : cheby_state vec :=
  mkCheby 2 [1; 1 # 2; 8 # 14] (4 # 7, -4 # 7) (3 # 7, 5 # 7) (5 # 8, 3 # 8)
    (Some (-16 # 128)) (Some (64 # 112)).

End Grid2.

(** ** Vocabulary of the properties *)

(** ['eigrange' not in par], for the dictionary the caller passed. *)
Definition eigrange_absent (par : option (gmap string pyval)) : Prop :=
  match par with
  | None => True
  | Some m => m !! "eigrange" = None
  end.

(** The exceptions that the solvers' own arithmetic, subscripts and
    comparisons can raise. *)
Definition runtime_error (e : exn) : Prop :=
  e = ZeroDivisionError \/ e = UnboundLocalError \/ e = TypeError \/
  e = KeyError \/ e = IndexError.

(** The recurrence coefficients [(p, w)] of pass [k] as the specification
    words them, [w_prev] being the [w] of pass [k - 1]. *)
Definition spec_coeffs (d c : Q) (k : nat) (w_prev : Q) : Q * Q :=
  if (k =? 1)%nat then (0, 1 / d)
  else if (k =? 2)%nat then (- (c / (2 * d)) ^ 2, 1 / (d - c ^ 2 / (2 * d)))
  else (- (c ^ 2 / 4) * w_prev ^ 2, 1 / (d - c ^ 2 * w_prev / 4)).

(** A history in which no entry exceeds the one before it. *)
Definition nonincreasing (h : list Q) : Prop :=
  forall i a b, h !! i = Some a -> h !! S i = Some b -> b <= a.

(** What the mean correction relies on: the mean is linear, the constant
    field has mean one, and truncation to [rank] and [tol] moves the mean
    by no more than [eps], the truncation tolerance. *)
Class MeanLaws (T : Type) `{TensorOps T} (rank : option nat) (tol : option Q) (eps : Q)
  : Prop := {
  mean_add : forall a b : T, tmean (tadd a b) == tmean a + tmean b;
  mean_scale : forall (a : T) (s : Q), tmean (tscale a s) == tmean a * s;
  mean_neg : forall a : T, tmean (tneg a) == - tmean a;
  mean_const_field : forall x : T, tmean (const_field x) == 1;
  mean_truncate : forall a : T, Qabs (tmean (truncate rank tol a) - tmean a) <= eps
}.

(** The state a pass of a loop body ends in, whichever way it ends. *)
Definition flow_state {S : Type} (f : flow S) : S :=
  match f with
  | Next s => s
  | Break s => s
  end.

Section Reachable.

Context {T : Type} `{TensorOps T}.
Variable Afun : T -> outcome T.
Variable B : T.
Variable x0 : option T.
Variable rank : option nat.
Variable tol : option Q.
Variable par : option (gmap string pyval).
Variable norm : option (T -> Q).
Variable FM : T.

(** The states in which [minimal_residual] tests its loop guard. *)
Inductive mr_reachable : mr_state T -> Prop :=
  | mr_reach_init s0 :
      mr_init Afun B x0 norm = Ok s0 -> mr_reachable s0
  | mr_reach_next s s' :
      mr_reachable s ->
      mr_guard par s = Ok true ->
      mr_iter Afun B rank tol par (mr_norm norm) FM s = Ok (Next s') ->
      mr_reachable s'.

(** The states in which [richardson] tests its loop guard, for a step
    size [omega]. *)
Inductive ri_reachable (omega : Q) : ri_state T -> Prop :=
  | ri_reach_init :
      ri_reachable omega (ri_init B x0 (ri_norm norm) omega)
  | ri_reach_next s s' :
      ri_reachable omega s ->
      ri_guard par s = Ok true ->
      ri_iter Afun B rank tol par (ri_norm norm) FM omega s = Ok (Next s') ->
      ri_reachable omega s'.

End Reachable.

(** * Properties *)

(** ** Outcomes and loops *)

Lemma bind_Ok {A B : Type} (m : outcome A) (k : A -> outcome B) (b : B) :
  bind m k = Ok b <-> exists a, m = Ok a /\ k a = Ok b.
Proof.
  split.
  - destruct m as [a| |]; simpl; intros E; try discriminate. eauto.
  - intros (a & -> & E). exact E.
Qed.

Lemma bind_Raise {A B : Type} (m : outcome A) (k : A -> outcome B) (e : exn) :
  bind m k = Raise e <-> m = Raise e \/ exists a, m = Ok a /\ k a = Raise e.
Proof.
  split.
  - destruct m as [a| |]; simpl; intros E; try discriminate; eauto.
    left. congruence.
  - intros [-> | (a & -> & E)]; [reflexivity | exact E].
Qed.

Lemma bind_OutOfFuel {A B : Type} (m : outcome A) (k : A -> outcome B) :
  bind m k = OutOfFuel <-> m = OutOfFuel \/ exists a, m = Ok a /\ k a = OutOfFuel.
Proof.
  split.
  - destruct m as [a| |]; simpl; intros E; try discriminate; eauto.
  - intros [-> | (a & -> & E)]; [reflexivity | exact E].
Qed.

(** Splits a hypothesis [bind m k = Ok b] into its two halves. *)
Ltac bind_inv H :=
  let a := fresh "a" in
  let E := fresh "E" in
  apply bind_Ok in H; destruct H as (a & E & H).

Section WhileFacts.

Context {S : Type}.
Variable guard : S -> outcome bool.
Variable body : S -> outcome (flow S).

Lemma while_exit (fuel : nat) (s : S) :
  guard s = Ok false -> while guard body fuel s = Ok s.
Proof. intros E. destruct fuel; simpl; rewrite E; reflexivity. Qed.

Lemma while_next (fuel : nat) (s s' : S) :
  guard s = Ok true -> body s = Ok (Next s') ->
  while guard body (Datatypes.S fuel) s = while guard body fuel s'.
Proof. intros E1 E2. simpl. rewrite E1. simpl. rewrite E2. reflexivity. Qed.

Lemma while_break (fuel : nat) (s s' : S) :
  guard s = Ok true -> body s = Ok (Break s') ->
  while guard body (Datatypes.S fuel) s = Ok s'.
Proof. intros E1 E2. simpl. rewrite E1. simpl. rewrite E2. reflexivity. Qed.

(** The invariant rule: [P] holds at every test of the guard, [R] of the
    state the loop is left in. *)
Lemma while_invariant (P R : S -> Prop) :
  (forall s s', P s -> guard s = Ok true -> body s = Ok (Next s') -> P s') ->
  (forall s s', P s -> guard s = Ok true -> body s = Ok (Break s') -> R s') ->
  (forall s, P s -> guard s = Ok false -> R s) ->
  forall fuel s r, P s -> while guard body fuel s = Ok r -> R r.
Proof.
  intros Hnext Hbreak Hexit fuel.
  induction fuel as [|fuel IH]; intros s r HP E; simpl in E.
  - bind_inv E. destruct a; [discriminate|].
    injection E as <-. auto.
  - bind_inv E. destruct a.
    + bind_inv E. destruct a as [s'|s'].
      * eapply IH; [|exact E]. eauto.
      * injection E as <-. eauto.
    + injection E as <-. auto.
Qed.

(** The loop raises only what its guard or its body raises. *)
Lemma while_raises (e : exn) :
  (forall s, guard s <> Raise e) ->
  (forall s, body s <> Raise e) ->
  forall fuel s, while guard body fuel s <> Raise e.
Proof.
  intros Hg Hb fuel.
  induction fuel as [|fuel IH]; intros s E; simpl in E.
  - apply bind_Raise in E. destruct E as [E | (g & _ & E)].
    + exact (Hg _ E).
    + destruct g; discriminate.
  - apply bind_Raise in E. destruct E as [E | (g & _ & E)].
    + exact (Hg _ E).
    + destruct g; [|discriminate].
      apply bind_Raise in E. destruct E as [E | (f & _ & E)].
      * exact (Hb _ E).
      * destruct f; [exact (IH _ E) | discriminate].
Qed.

(** A counter that each pass increments and the guard bounds gives the
    fuel that suffices. *)
Lemma while_enough_fuel (kit : S -> nat) (n : nat) :
  (forall s, guard s <> OutOfFuel) ->
  (forall s, body s <> OutOfFuel) ->
  (forall s, guard s = Ok true -> (kit s < n)%nat) ->
  (forall s s', body s = Ok (Next s') -> kit s' = Datatypes.S (kit s)) ->
  forall fuel s, (n <= kit s + fuel)%nat -> while guard body fuel s <> OutOfFuel.
Proof.
  intros Hg Hb Hlt Hinc fuel.
  induction fuel as [|fuel IH]; intros s Hn E; simpl in E.
  - apply bind_OutOfFuel in E. destruct E as [E | (g & Eg & E)].
    + exact (Hg _ E).
    + destruct g; [|discriminate]. apply Hlt in Eg. lia.
  - apply bind_OutOfFuel in E. destruct E as [E | (g & Eg & E)].
    + exact (Hg _ E).
    + destruct g; [|discriminate].
      apply bind_OutOfFuel in E. destruct E as [E | (f & Ef & E)].
      * exact (Hb _ E).
      * destruct f as [s'|s']; [|discriminate].
        apply (IH s'); [|exact E].
        rewrite (Hinc _ _ Ef). lia.
Qed.

(** When guard and body raise nothing on the states of an invariant [I],
    the loop ends in a state. *)
Lemma while_succeeds (I : S -> Prop) (kit : S -> nat) (n : nat) :
  (forall s, I s -> exists g, guard s = Ok g) ->
  (forall s, I s -> guard s = Ok true ->
     exists f, body s = Ok f /\ forall s', f = Next s' -> I s') ->
  (forall s, guard s = Ok true -> (kit s < n)%nat) ->
  (forall s s', body s = Ok (Next s') -> kit s' = Datatypes.S (kit s)) ->
  forall fuel s, I s -> (n <= kit s + fuel)%nat -> exists r, while guard body fuel s = Ok r.
Proof.
  intros Hg Hb Hlt Hinc fuel.
  induction fuel as [|fuel IH]; intros s HI Hn.
  - destruct (Hg s HI) as ([|] & Eg).
    + apply Hlt in Eg. lia.
    + exists s. apply while_exit. exact Eg.
  - destruct (Hg s HI) as ([|] & Eg).
    + destruct (Hb s HI Eg) as ([s'|s'] & Ef & HI').
      * rewrite (while_next _ _ _ Eg Ef). apply IH; [auto|].
        rewrite (Hinc _ _ Ef). lia.
      * exists s'. apply while_break; assumption.
    + exists s. apply while_exit. exact Eg.
Qed.

End WhileFacts.

(** ** Python arithmetic and comparisons *)

Lemma Qltb_lt (a b : Q) : Qltb a b = true <-> a < b.
Proof.
  unfold Qltb. rewrite negb_true_iff. split.
  - intros E. apply Qnot_le_lt. intros Hle.
    apply Qle_bool_iff in Hle. congruence.
  - intros Hlt. destruct (Qle_bool b a) eqn:E; [|reflexivity].
    apply Qle_bool_iff in E. exfalso. exact (Qlt_not_le _ _ Hlt E).
Qed.

Lemma Qltb_ge (a b : Q) : Qltb a b = false <-> b <= a.
Proof.
  unfold Qltb. rewrite negb_false_iff. apply Qle_bool_iff.
Qed.

Lemma pydiv_Ok (a b q : Q) : pydiv a b = Ok q <-> ~ b == 0 /\ q = a / b.
Proof.
  unfold pydiv. destruct (Qeq_bool b 0) eqn:E.
  - apply Qeq_bool_iff in E. split; [discriminate | tauto].
  - apply Qeq_bool_neq in E. split.
    + intros [= <-]. auto.
    + intros [_ ->]. reflexivity.
Qed.

Lemma pydiv_zero (a b : Q) : b == 0 -> pydiv a b = Raise ZeroDivisionError.
Proof.
  intros E. unfold pydiv. apply Qeq_bool_iff in E. rewrite E. reflexivity.
Qed.

Lemma pydiv_nonzero (a b : Q) : ~ b == 0 -> pydiv a b = Ok (a / b).
Proof. intros E. apply pydiv_Ok. auto. Qed.

Lemma pydiv_raises (a b : Q) (e : exn) : pydiv a b = Raise e -> e = ZeroDivisionError.
Proof. unfold pydiv. destruct (Qeq_bool b 0); congruence. Qed.

Lemma pydiv_fuel (a b : Q) : pydiv a b <> OutOfFuel.
Proof. unfold pydiv. destruct (Qeq_bool b 0); discriminate. Qed.

Lemma getitem_raises par k (e : exn) :
  getitem par k = Raise e -> e = TypeError \/ e = KeyError.
Proof.
  unfold getitem. destruct par as [m|]; [destruct (m !! k)|]; intros [=]; auto.
Qed.

Lemma getitem_fuel par k : getitem par k <> OutOfFuel.
Proof. unfold getitem. destruct par as [m|]; [destruct (m !! k)|]; discriminate. Qed.

Lemma hist_index_raises h i (e : exn) : hist_index h i = Raise e -> e = IndexError.
Proof. unfold hist_index. destruct (h !! i); congruence. Qed.

Lemma hist_index_fuel h i : hist_index h i <> OutOfFuel.
Proof. unfold hist_index. destruct (h !! i); discriminate. Qed.

Lemma py_lt_Ok a v g : py_lt a v = Ok g -> exists q, as_number v = Some q /\ g = Qltb a q.
Proof. unfold py_lt. destruct (as_number v); intros [=]; eauto. Qed.

Lemma py_gt_Ok a v g : py_gt a v = Ok g -> exists q, as_number v = Some q /\ g = Qltb q a.
Proof. unfold py_gt. destruct (as_number v); intros [=]; eauto. Qed.

Lemma py_lt_raises a v (e : exn) : py_lt a v = Raise e -> e = TypeError.
Proof. unfold py_lt. destruct (as_number v); congruence. Qed.

Lemma py_gt_raises a v (e : exn) : py_gt a v = Raise e -> e = TypeError.
Proof. unfold py_gt. destruct (as_number v); congruence. Qed.

(** A number is not a list: comparing it with a list is a [TypeError]. *)
Lemma py_lt_list_number v q h : as_number v = Some q -> py_lt_list v h = Raise TypeError.
Proof. destruct v; simpl; intros [=]; reflexivity. Qed.

(** ** The loop guard *)

Lemma loop_guard_Ok par a kit g :
  loop_guard par a kit = Ok g ->
  exists t q, getitem par "tol" = Ok t /\ as_number t = Some q /\
    (g = true -> q < a).
Proof.
  unfold loop_guard. intros E. bind_inv E. bind_inv E.
  apply py_gt_Ok in E1. destruct E1 as (q & Eq & ->).
  exists a0, q. repeat split; auto.
  destruct (Qltb q a) eqn:El.
  - intros _. apply Qltb_lt. exact El.
  - injection E as <-. discriminate.
Qed.

Lemma loop_guard_bound par a kit :
  loop_guard par a kit = Ok true -> (kit < maxiter_fuel par)%nat.
Proof.
  unfold loop_guard. intros E. bind_inv E. bind_inv E.
  destruct a1; [|discriminate]. bind_inv E.
  apply py_lt_Ok in E. destruct E as (q & Eq & Hq).
  symmetry in Hq. apply Qltb_lt in Hq.
  unfold maxiter_fuel, getitem in *.
  destruct par as [m|]; [|discriminate].
  destruct (m !! "maxiter") as [v|]; [|discriminate].
  injection E2 as ->. rewrite Eq.
  pose proof (Qle_ceiling q) as Hc.
  assert (Hlt : inject_Z (Z.of_nat kit) < inject_Z (Qceiling q)) by (eapply Qlt_le_trans; eauto).
  rewrite <- Zlt_Qlt in Hlt. lia.
Qed.

Lemma loop_guard_fuel par a kit : loop_guard par a kit <> OutOfFuel.
Proof.
  unfold loop_guard, py_gt, py_lt, getitem.
  destruct par as [m|]; [|discriminate].
  destruct (m !! "tol") as [t|]; [|discriminate]. simpl.
  destruct (as_number t); [|discriminate]. simpl.
  destruct (Qltb q a); [|discriminate].
  destruct (m !! "maxiter") as [v|]; [|discriminate]. simpl.
  destruct (as_number v); discriminate.
Qed.

Lemma loop_guard_raises par a kit (e : exn) :
  loop_guard par a kit = Raise e -> e = TypeError \/ e = KeyError.
Proof.
  unfold loop_guard. intros E.
  apply bind_Raise in E. destruct E as [E | (t & _ & E)].
  { eapply getitem_raises; eauto. }
  apply bind_Raise in E. destruct E as [E | (g & _ & E)].
  { left. eapply py_gt_raises; eauto. }
  destruct g; [|discriminate].
  apply bind_Raise in E. destruct E as [E | (m & _ & E)].
  { eapply getitem_raises; eauto. }
  left. eapply py_lt_raises; eauto.
Qed.

(** ** cheby2TERM *)

Lemma lookup_setdefault_ne k k' v (m : gmap string pyval) :
  k <> k' -> setdefault k v m !! k' = m !! k'.
Proof.
  intros Hne. unfold setdefault. destruct (m !! k); [reflexivity|].
  apply lookup_insert_ne. exact Hne.
Qed.

Lemma lookup_setdefault k v (m : gmap string pyval) :
  setdefault k v m !! k = Some (default v (m !! k)).
Proof.
  unfold setdefault. destruct (m !! k) eqn:E; simpl; [exact E|].
  apply lookup_insert_eq.
Qed.

Lemma cheby_params_absent par :
  cheby_params par = Raise NotImplementedError <-> eigrange_absent par.
Proof.
  unfold cheby_params, eigrange_absent.
  rewrite !lookup_setdefault_ne by discriminate.
  destruct par as [m|].
  - destruct (m !! "eigrange"); split; intros E; congruence.
  - rewrite lookup_empty. tauto.
Qed.

Lemma cheby_params_raises par (e : exn) :
  cheby_params par = Raise e -> e = NotImplementedError.
Proof.
  unfold cheby_params.
  match goal with |- context [?m !! "eigrange"] => destruct (m !! "eigrange") end;
    congruence.
Qed.

Lemma cheby_params_Ok par par' Egv :
  cheby_params par = Ok (par', Egv) ->
  par' !! "eigrange" = Some Egv /\
  (exists t, par' !! "tol" = Some t) /\ (exists m, par' !! "maxiter" = Some m).
Proof.
  unfold cheby_params.
  match goal with |- context [?m !! "eigrange"] => destruct (m !! "eigrange") eqn:E end;
    [|discriminate].
  intros [= <- <-]. split; [exact E|]. split.
  - rewrite lookup_setdefault_ne by discriminate. rewrite lookup_setdefault. eauto.
  - rewrite lookup_setdefault. eauto.
Qed.

Section ChebyFacts.

Context {T : Type} `{TensorOps T}.
Variable Afun : T -> outcome T.
Variable B : T.
Variable x0 : option T.
Variable rank : option nat.
Variable tol : option Q.
Variable callback : option (T -> outcome unit).

Lemma cheby_coeffs_raises d c kit w (e : exn) :
  cheby_coeffs d c kit w = Raise e -> e = ZeroDivisionError \/ e = UnboundLocalError.
Proof.
  unfold cheby_coeffs.
  destruct (kit =? 1)%nat; [|destruct (kit =? 2)%nat]; intros E.
  - apply bind_Raise in E. destruct E as [E | (? & _ & E)]; [|discriminate].
    left. eapply pydiv_raises; eauto.
  - repeat (apply bind_Raise in E; destruct E as [E | (? & _ & E)];
            [left; eapply pydiv_raises; eauto|]).
    discriminate.
  - apply bind_Raise in E. destruct E as [E | (? & _ & E)].
    { right. destruct w; simpl in E; congruence. }
    apply bind_Raise in E. destruct E as [E | (? & _ & E)]; [|discriminate].
    left. eapply pydiv_raises; eauto.
Qed.

Lemma cheby_coeffs_Ok d c kit w p w' :
  cheby_coeffs d c kit w = Ok (p, w') ->
  (kit = 1%nat -> p = 0 /\ w' = 1 / d) /\
  (kit = 2%nat -> p = - (1 / 2) * (c / d) * (c / d) /\ w' = 1 / (d - c * c / 2 / d)) /\
  (kit <> 1%nat -> kit <> 2%nat -> exists w_prev, w = Some w_prev /\
     p = - (c * c / 4) * w_prev * w_prev /\ w' = 1 / (d - c * c * w_prev / 4)).
Proof.
  unfold cheby_coeffs, pydiv, read_local.
  destruct (kit =? 1)%nat eqn:K1; [|destruct (kit =? 2)%nat eqn:K2].
  - apply Nat.eqb_eq in K1.
    destruct (Qeq_bool d 0); simpl; [discriminate|].
    intros [= <- <-]. repeat split; try (intros; lia); reflexivity.
  - apply Nat.eqb_eq in K2.
    destruct (Qeq_bool d 0); simpl; [discriminate|].
    match goal with |- context [Qeq_bool (?a - ?b) 0] => destruct (Qeq_bool (a - b) 0) end;
      simpl; [discriminate|].
    intros [= <- <-]. repeat split; try (intros; lia); reflexivity.
  - apply Nat.eqb_neq in K1, K2.
    destruct w as [w_prev|]; simpl; [|discriminate].
    match goal with |- context [Qeq_bool (?a - ?b) 0] => destruct (Qeq_bool (a - b) 0) end;
      simpl; [discriminate|].
    intros [= <- <-]. split; [intros; lia|]. split; [intros; lia|].
    intros _ _. exists w_prev. repeat split; reflexivity.
Qed.

Lemma cheby_coeffs_fuel d c kit w : cheby_coeffs d c kit w <> OutOfFuel.
Proof.
  unfold cheby_coeffs, pydiv, read_local.
  destruct (kit =? 1)%nat; [|destruct (kit =? 2)%nat].
  - destruct (Qeq_bool d 0); discriminate.
  - destruct (Qeq_bool d 0); simpl; [discriminate|].
    match goal with |- context [Qeq_bool (?a - ?b) 0] => destruct (Qeq_bool (a - b) 0) end;
      discriminate.
  - destruct w as [w0|]; simpl; [|discriminate].
    match goal with |- context [Qeq_bool (?a - ?b) 0] => destruct (Qeq_bool (a - b) 0) end;
      discriminate.
Qed.

Lemma cheby_dc_raises Egv (e : exn) :
  cheby_dc Egv = Raise e -> e = TypeError \/ e = IndexError.
Proof.
  assert (Hi : forall i v, py_index Egv i = Raise v -> v = TypeError \/ v = IndexError).
  { intros i v. unfold py_index.
    destruct Egv; try (intros [=]; auto; fail).
    - destruct (String.get i s); intros [=]; auto.
    - destruct (l !! i); intros [=]; auto.
    - destruct (l !! i); intros [=]; auto. }
  unfold cheby_dc. intros E.
  apply bind_Raise in E. destruct E as [E | (e1 & _ & E)]; [eauto|].
  apply bind_Raise in E. destruct E as [E | (e0 & _ & E)]; [eauto|].
  destruct (as_number e1), (as_number e0); try discriminate; injection E as <-; auto.
Qed.

Lemma cheby_guard_Ok par (s : cheby_state T) g :
  cheby_guard par s = Ok g ->
  exists t q, par !! "tol" = Some t /\ as_number t = Some q.
Proof.
  unfold cheby_guard. intros E. bind_inv E.
  apply loop_guard_Ok in E. destruct E as (t & q & Et & Eq & _).
  exists t, q. split; [|exact Eq].
  simpl in Et. destruct (par !! "tol"); congruence.
Qed.

Lemma cheby_iter_kit FM d c r0 s s' :
  cheby_iter Afun B rank tol callback FM d c r0 s = Ok (Next s') ->
  ch_kit s' = S (ch_kit s).
Proof.
  unfold cheby_iter. intros E. bind_inv E. destruct a as [p w].
  repeat bind_inv E. injection E as <-. reflexivity.
Qed.

Lemma cheby_iter_no_break FM d c r0 s s' :
  cheby_iter Afun B rank tol callback FM d c r0 s <> Ok (Break s').
Proof.
  unfold cheby_iter. intros E. bind_inv E. destruct a as [p w].
  repeat bind_inv E. discriminate.
Qed.

(** The loop ends on a test of the guard: by then [par['tol']] has been
    compared with a float, so it is a number. *)
Lemma cheby_loop_tol par FM d c r0 fuel (s0 s : cheby_state T) :
  while (cheby_guard par) (cheby_iter Afun B rank tol callback FM d c r0) fuel s0 = Ok s ->
  exists t q, par !! "tol" = Some t /\ as_number t = Some q.
Proof.
  intros Ew.
  eapply (while_invariant _ _ (fun _ => True)
            (fun _ => exists t q, par !! "tol" = Some t /\ as_number t = Some q));
    [ | | | exact I | exact Ew]; auto.
  - intros s1 s2 _ _ E. exfalso. eapply cheby_iter_no_break; eauto.
  - intros s1 _ E. eapply cheby_guard_Ok; eauto.
Qed.

Lemma cheby_report_number par hist t q :
  par !! "tol" = Some t -> as_number t = Some q ->
  cheby_report par hist = Raise TypeError.
Proof.
  intros Et Eq. unfold cheby_report. simpl. rewrite Et. simpl.
  rewrite (py_lt_list_number _ _ _ Eq). reflexivity.
Qed.

(** So [cheby2TERM] hands back a result only through its early return. *)
Lemma cheby2TERM_Ok_early par sol :
  cheby2TERM Afun B x0 rank tol par callback = Ok sol ->
  sol_kit sol = 0%nat /\ sol_printed sol = [] /\
  exists a, sol_norm_res sol = NormList [a].
Proof.
  unfold cheby2TERM. intros E.
  apply bind_Ok in E. destruct E as ([par' Egv] & _ & E).
  apply bind_Ok in E. destruct E as ([[[x r] r0] hist] & Ei & E).
  apply bind_Ok in E. destruct E as (a & _ & E).
  apply bind_Ok in E. destruct E as (t & _ & E).
  apply bind_Ok in E. destruct E as (early & _ & E).
  destruct early.
  - injection E as <-. simpl. repeat split.
    unfold cheby_init in Ei.
    apply bind_Ok in Ei. destruct Ei as (Ib & _ & Ei).
    apply bind_Ok in Ei. destruct Ei as (Ax & _ & [= _ _ _ <-]). eauto.
  - exfalso. unfold cheby_run in E.
    apply bind_Ok in E. destruct E as ([d c] & _ & E).
    apply bind_Ok in E. destruct E as (s & Ew & E).
    apply bind_Ok in E. destruct E as (msg & Er & _).
    apply cheby_loop_tol in Ew. destruct Ew as (t' & q & Et & Eq).
    rewrite (cheby_report_number _ _ _ _ Et Eq) in Er. discriminate.
Qed.

End ChebyFacts.

Section ChebyErrors.

Context {T : Type} `{TensorOps T}.
Variable Afun : T -> outcome T.
Variable B : T.
Variable x0 : option T.
Variable rank : option nat.
Variable tol : option Q.
Variable callback : option (T -> outcome unit).

(** An exception [e] that neither Python's own operations nor the two
    callables raise. *)
Variable e : exn.
Hypothesis e_foreign : ~ runtime_error e.
Hypothesis Afun_e : forall x, Afun x <> Raise e.
Hypothesis callback_e : forall cb x, callback = Some cb -> cb x <> Raise e.

Lemma list_lt_raises l h (e' : exn) : list_lt l h = Raise e' -> e' = TypeError.
Proof.
  revert h. induction l as [|v l IH]; intros [|a h]; simpl; try discriminate.
  destruct (py_eq_float v a); [apply IH|].
  unfold py_lt_float. destruct (as_number v); congruence.
Qed.

Lemma cheby_report_raises par h (e' : exn) :
  cheby_report par h = Raise e' -> runtime_error e'.
Proof.
  unfold cheby_report, runtime_error. intros E.
  apply bind_Raise in E. destruct E as [E | (t & _ & E)].
  { apply getitem_raises in E. tauto. }
  apply bind_Raise in E. destruct E as [E | (b & _ & E)]; [|discriminate].
  assert (e' = TypeError); [|tauto].
  unfold py_lt_list in E. destruct t; try congruence.
  eapply list_lt_raises; eauto.
Qed.

Lemma cheby_guard_foreign par (s : cheby_state T) : cheby_guard par s <> Raise e.
Proof.
  unfold cheby_guard. intros E. apply e_foreign. unfold runtime_error.
  apply bind_Raise in E. destruct E as [E | (a & _ & E)].
  - apply hist_index_raises in E. tauto.
  - apply loop_guard_raises in E. tauto.
Qed.

Lemma cheby_iter_foreign FM d c r0 s :
  cheby_iter Afun B rank tol callback FM d c r0 s <> Raise e.
Proof.
  unfold cheby_iter. intros E.
  apply bind_Raise in E. destruct E as [E | ([p w] & _ & E)].
  { apply cheby_coeffs_raises in E. apply e_foreign. unfold runtime_error. tauto. }
  apply bind_Raise in E. destruct E as [E | (Ax & _ & E)].
  { exact (Afun_e _ E). }
  apply bind_Raise in E. destruct E as [E | (Ir0 & _ & E)].
  { apply pydiv_raises in E. apply e_foreign. unfold runtime_error. tauto. }
  apply bind_Raise in E. destruct E as [E | (? & _ & E)]; [|discriminate].
  destruct callback as [cb|]; [|discriminate].
  exact (callback_e cb _ eq_refl E).
Qed.

Lemma cheby_run_foreign par Egv x r r0 hist :
  cheby_run Afun B rank tol callback par Egv x r r0 hist <> Raise e.
Proof.
  unfold cheby_run. intros E.
  apply bind_Raise in E. destruct E as [E | ([d c] & _ & E)].
  { apply cheby_dc_raises in E. apply e_foreign. unfold runtime_error. tauto. }
  apply bind_Raise in E. destruct E as [E | (s & _ & E)].
  { revert E. apply while_raises.
    - apply cheby_guard_foreign.
    - intros s. apply cheby_iter_foreign. }
  apply bind_Raise in E. destruct E as [E | (msg & _ & E)]; [|discriminate].
  apply cheby_report_raises in E. exact (e_foreign E).
Qed.

(** Past the test for ['eigrange'], nothing raises [e]. *)
Lemma cheby2TERM_foreign par :
  cheby2TERM Afun B x0 rank tol par callback = Raise e ->
  cheby_params par = Raise e.
Proof.
  unfold cheby2TERM. intros E.
  apply bind_Raise in E. destruct E as [E | ([par' Egv] & _ & E)]; [exact E|].
  exfalso.
  apply bind_Raise in E. destruct E as [E | ([[[x r] r0] hist] & _ & E)].
  { unfold cheby_init in E.
    apply bind_Raise in E. destruct E as [E | (Ib & _ & E)].
    { apply pydiv_raises in E. apply e_foreign. unfold runtime_error. tauto. }
    apply bind_Raise in E. destruct E as [E | (Ax & _ & E)]; [|discriminate].
    exact (Afun_e _ E). }
  apply bind_Raise in E. destruct E as [E | (a & _ & E)].
  { apply hist_index_raises in E. apply e_foreign. unfold runtime_error. tauto. }
  apply bind_Raise in E. destruct E as [E | (t & _ & E)].
  { apply getitem_raises in E. apply e_foreign. unfold runtime_error. tauto. }
  apply bind_Raise in E. destruct E as [E | (early & _ & E)].
  { apply py_lt_raises in E. apply e_foreign. unfold runtime_error. tauto. }
  destruct early; [discriminate|].
  exact (cheby_run_foreign _ _ _ _ _ _ E).
Qed.

End ChebyErrors.

Section ChebyClaims.

Context {T : Type} `{TensorOps T}.
Variable Afun : T -> outcome T.
Variable B : T.
Variable x0 : option T.
Variable rank : option nat.
Variable tol : option Q.
Variable callback : option (T -> outcome unit).

(** C10 (as amended). [cheby2TERM] raises [NotImplementedError] if and
    only if ['eigrange'] is absent from the parameters (an operator and a
    callback that raise this exception themselves set aside); and with
    ['eigrange'] absent the exception comes before anything is computed:
    whatever the operator, the right-hand side, the initial guess and the
    callback, also an operator that fails as soon as it is applied. *)
Theorem cheby2TERM_eigrange_required (par : option (gmap string pyval)) :
  (forall x, Afun x <> Raise NotImplementedError) ->
  (forall cb x, callback = Some cb -> cb x <> Raise NotImplementedError) ->
  (cheby2TERM Afun B x0 rank tol par callback = Raise NotImplementedError
   <-> eigrange_absent par) /\
  (eigrange_absent par ->
   forall (Afun' : T -> outcome T) B' x0' rank' tol' callback',
     cheby2TERM Afun' B' x0' rank' tol' par callback' = Raise NotImplementedError).
Proof.
  intros HA Hcb.
  assert (Himm : eigrange_absent par ->
    forall (Afun' : T -> outcome T) B' x0' rank' tol' callback',
      cheby2TERM Afun' B' x0' rank' tol' par callback' = Raise NotImplementedError).
  { intros Habs Afun' B' x0' rank' tol' callback'.
    apply cheby_params_absent in Habs.
    unfold cheby2TERM. rewrite Habs. reflexivity. }
  split; [split|exact Himm].
  - intros E. apply cheby_params_absent.
    eapply cheby2TERM_foreign; eauto.
    unfold runtime_error. intros [?|[?|[?|[?|?]]]]; discriminate.
  - intros Habs. apply Himm. exact Habs.
Qed.

(** C6 (what the code does). With ['eigrange'] given and a right-hand
    side of norm zero, [cheby2TERM] does not return: the reciprocal of the
    norm is taken before the norm is replaced by one, and the call ends in
    [ZeroDivisionError]. *)
Theorem cheby2TERM_zero_rhs (par : option (gmap string pyval)) :
  ~ eigrange_absent par ->
  tnorm B == 0 ->
  cheby2TERM Afun B x0 rank tol par callback = Raise ZeroDivisionError.
Proof.
  intros Hpres Hzero.
  unfold cheby2TERM.
  destruct (cheby_params par) as [[par' Egv]|e|] eqn:Ep; simpl.
  - unfold cheby_init. rewrite (pydiv_zero _ _ Hzero). reflexivity.
  - pose proof (cheby_params_raises _ _ Ep) as ->.
    apply cheby_params_absent in Ep. contradiction.
  - unfold cheby_params in Ep.
    match type of Ep with context [?m !! "eigrange"] => destruct (m !! "eigrange") end;
      discriminate.
Qed.

(** C8 (as amended). When the first normalised residual is below the
    tolerance, [cheby2TERM] returns at once, with no pass of the loop made:
    the iterate is the initial guess, [res['kit']] is [0] and
    [res['norm_res']] is the list holding that one residual. *)
Theorem cheby2TERM_early_return (par : option (gmap string pyval)) par' Egv t q Ax :
  cheby_params par = Ok (par', Egv) ->
  par' !! "tol" = Some t ->
  as_number t = Some q ->
  ~ tnorm B == 0 ->
  Afun (initial_guess x0 B) = Ok Ax ->
  1 / tnorm B * tnorm (tsub B Ax) < q ->
  cheby2TERM Afun B x0 rank tol par callback =
    Ok (mkSolution (initial_guess x0 B)
          (NormList [1 / tnorm B * tnorm (tsub B Ax)]) 0 []).
Proof.
  intros Ep Et Eq Hnz EA Hlt.
  unfold cheby2TERM. rewrite Ep. simpl.
  unfold cheby_init. rewrite (pydiv_nonzero _ _ Hnz). simpl.
  rewrite EA. simpl. rewrite Et. simpl.
  unfold py_lt. rewrite Eq. simpl.
  apply Qltb_lt in Hlt. rewrite Hlt. reflexivity.
Qed.

(** C7 (what the code does). Once the loop of [cheby2TERM] is over, the
    closing report compares the tolerance with the whole history list:
    whatever the last residual, the call ends in [TypeError] and no
    message is printed. *)
Theorem cheby_report_fatal (par : gmap string pyval) Egv x r r0 hist d c s :
  cheby_dc Egv = Ok (d, c) ->
  while (cheby_guard par) (cheby_iter Afun B rank tol callback (const_field x) d c r0)
    (maxiter_fuel (Some par)) (mkCheby 0 hist x r (tscale x 0) None None) = Ok s ->
  cheby_run Afun B rank tol callback par Egv x r r0 hist = Raise TypeError.
Proof.
  intros Edc Ew.
  unfold cheby_run. rewrite Edc. cbn [bind]. rewrite Ew. cbn [bind].
  apply cheby_loop_tol in Ew. destruct Ew as (t & q & Et & Eq).
  rewrite (cheby_report_number _ _ _ _ Et Eq). reflexivity.
Qed.

(** C1 (as amended). With [par['eigrange'] = (lmin, lmax)] the constants
    are [d = (lmax+lmin)/2] and [c = (lmax-lmin)/2], and a pass of the loop
    that brings the counter to [k] updates [v] and [x] with coefficients
    [p] and [w] such that: at [k = 1], [p = 0] and [w = 1/d]; at [k = 2],
    [p = -(1/2)(c/d)^2] and [w = 1/(d - c^2/(2d))]; at [k >= 3],
    [p = -(c^2/4) w_prev^2] and [w = 1/(d - c^2 w_prev/4)], [w_prev] being the
    [w] that the pass before left behind. *)
Theorem cheby_coefficients (lmin lmax : Q) FM r0 (s s' : cheby_state T) :
  let d := (lmax + lmin) / 2 in
  let c := (lmax - lmin) / 2 in
  let k := S (ch_kit s) in
  cheby_dc (PyTuple [PyFloat lmin; PyFloat lmax]) = Ok (d, c) /\
  (cheby_iter Afun B rank tol callback FM d c r0 s = Ok (Next s') ->
   exists p w,
     ch_kit s' = k /\ ch_p s' = Some p /\ ch_w s' = Some w /\
     ch_v s' = truncate rank tol (tsub (ch_r s) (tscale (ch_v s) p)) /\
     ch_x s' = mean_correct rank tol FM (tadd (ch_x s) (tscale (ch_v s') w)) /\
     (k = 1%nat -> p = 0 /\ w = 1 / d) /\
     (k = 2%nat -> p = - (1 / 2) * (c / d) * (c / d) /\ w = 1 / (d - c * c / 2 / d)) /\
     ((3 <= k)%nat -> exists w_prev, ch_w s = Some w_prev /\
        p = - (c * c / 4) * w_prev * w_prev /\ w = 1 / (d - c * c * w_prev / 4))).
Proof.
  intros d c k. split; [reflexivity|].
  unfold cheby_iter. fold k. intros E.
  bind_inv E. destruct a as [p w]. repeat bind_inv E.
  injection E as <-. simpl.
  exists p, w. repeat (split; [reflexivity|]).
  apply cheby_coeffs_Ok in E0. destruct E0 as (K1 & K2 & K3).
  split; [exact K1|]. split; [exact K2|].
  intros Hk. apply K3; lia.
Qed.

End ChebyClaims.

(** ** Residual histories *)

Lemma nonincreasing_singleton (a : Q) : nonincreasing [a].
Proof. intros [|i] x y Hx Hy; simpl in *; discriminate. Qed.

Lemma nonincreasing_snoc (h : list Q) (prev a : Q) :
  nonincreasing h -> last h = Some prev -> a <= prev -> nonincreasing (h ++ [a]).
Proof.
  intros Hh Hl Ha i x y Hx Hy.
  destruct (decide (S i < length h)%nat) as [Hlt|Hge].
  - rewrite lookup_app_l in Hx by lia. rewrite lookup_app_l in Hy by lia. eauto.
  - assert (Hi : S i = length h).
    { apply lookup_lt_Some in Hy. rewrite length_app in Hy. simpl in Hy. lia. }
    rewrite lookup_app_l in Hx by lia.
    rewrite lookup_app_r in Hy by lia.
    replace (S i - length h)%nat with 0%nat in Hy by lia.
    injection Hy as <-.
    rewrite last_lookup in Hl. rewrite <- Hi in Hl. simpl in Hl.
    congruence.
Qed.

Lemma last_full_history (h : list Q) (kit : nat) :
  length h = S kit -> last h = h !! kit.
Proof. intros E. rewrite last_lookup, E. reflexivity. Qed.

Lemma hist_index_last (h : list Q) (kit : nat) (prev : Q) :
  length h = S kit -> last h = Some prev -> hist_index h (S kit - 1) = Ok prev.
Proof.
  intros E Hl. rewrite (last_full_history _ _ E) in Hl.
  unfold hist_index. replace (S kit - 1)%nat with kit by lia.
  rewrite Hl. reflexivity.
Qed.

(** ** minimal_residual *)

Lemma py_and_Ok dc (b : outcome bool) g :
  py_and dc b = Ok g -> (truthy dc = true /\ b = Ok g) \/ (truthy dc = false /\ g = false).
Proof.
  unfold py_and. destruct (truthy dc); [auto|].
  intros [= <-]. auto.
Qed.

Section MinresFacts.

Context {T : Type} `{TensorOps T}.
Variable Afun : T -> outcome T.
Variable B : T.
Variable x0 : option T.
Variable rank : option nat.
Variable tol : option Q.
Variable par : option (gmap string pyval).
Variable norm : option (T -> Q).
Variable FM : T.

Let nrm : T -> Q := mr_norm norm.

(** What a pass of the loop body that does not raise has done. *)
Lemma mr_iter_Ok (s : mr_state T) f :
  mr_iter Afun B rank tol par nrm FM s = Ok f ->
  exists omega residuum dc (diverging : bool),
    let kit := S (mr_kit s) in
    let x := mean_correct rank tol FM (tadd (mr_x s) (tscale (mr_residuum s) omega)) in
    let norm_res := nrm residuum in
    mr_omega par nrm s = Ok omega /\
    (if (kit mod 10 =? 0)%nat then exists Ax, Afun x = Ok Ax /\ residuum = tsub B Ax
     else residuum = truncate rank tol (tsub (mr_residuum s) (tscale (mr_beta s) omega))) /\
    getitem par "divcrit" = Ok dc /\
    py_and dc (let* prev := hist_index (mr_hist s) (kit - 1) in Ok (Qltb prev norm_res))
      = Ok diverging /\
    (if diverging then f = Break (mkMR kit (mr_hist s) x residuum (mr_beta s) norm_res)
     else exists beta, Afun residuum = Ok beta /\
       f = Next (mkMR kit (mr_hist s ++ [norm_res]) x residuum beta norm_res)).
Proof.
  unfold mr_iter. intros E.
  apply bind_Ok in E. destruct E as (omega & Eo & E).
  apply bind_Ok in E. destruct E as (residuum & Er & E).
  apply bind_Ok in E. destruct E as (dc & Ed & E).
  apply bind_Ok in E. destruct E as (diverging & Ev & E).
  exists omega, residuum, dc, diverging. cbv zeta.
  split; [exact Eo|]. split; [|split; [exact Ed|split; [exact Ev|]]].
  - destruct (S (mr_kit s) mod 10 =? 0)%nat.
    + apply bind_Ok in Er. destruct Er as (Ax & EA & [= <-]). eauto.
    + injection Er as <-. reflexivity.
  - destruct diverging.
    + injection E as <-. reflexivity.
    + apply bind_Ok in E. destruct E as (beta & Eb & [= <-]). eauto.
Qed.

(** At every test of the guard, [norm_res] is the norm of [residuum], and
    [beta] is the operator applied to [residuum]. *)
Lemma mr_reachable_inv (s : mr_state T) :
  mr_reachable Afun B x0 rank tol par norm FM s ->
  mr_norm_res s = nrm (mr_residuum s) /\ Afun (mr_residuum s) = Ok (mr_beta s).
Proof.
  induction 1 as [s0 E | s s' _ _ _ E].
  - unfold mr_init in E.
    apply bind_Ok in E. destruct E as (Ax & EA & E).
    apply bind_Ok in E. destruct E as (beta & Eb & E).
    apply bind_Ok in E. destruct E as (norm_res & En & [= <-]).
    simpl in *. injection En as <-. auto.
  - apply mr_iter_Ok in E.
    destruct E as (omega & residuum & dc & diverging & _ & _ & _ & _ & E).
    destruct diverging; [discriminate|].
    destruct E as (beta & Eb & [= ->]). simpl. auto.
Qed.

Lemma mr_reachable_length (s : mr_state T) :
  mr_reachable Afun B x0 rank tol par norm FM s ->
  length (mr_hist s) = S (mr_kit s).
Proof.
  induction 1 as [s0 E | s s' _ IH _ E].
  - unfold mr_init in E.
    apply bind_Ok in E. destruct E as (Ax & EA & E).
    apply bind_Ok in E. destruct E as (beta & Eb & E).
    apply bind_Ok in E. destruct E as (norm_res & En & [= <-]).
    reflexivity.
  - apply mr_iter_Ok in E.
    destruct E as (omega & residuum & dc & diverging & _ & _ & _ & _ & E).
    destruct diverging; [discriminate|].
    destruct E as (beta & Eb & [= ->]). simpl.
    rewrite length_app, IH. simpl. lia.
Qed.

(** With [par['divcrit']] set, a pass of the loop either finds the new
    residual norm above the last recorded one and breaks, leaving the
    history as it was, or records a norm that is not above it. *)
Lemma mr_iter_divcrit (s : mr_state T) f dc prev :
  mr_reachable Afun B x0 rank tol par norm FM s ->
  getitem par "divcrit" = Ok dc -> truthy dc = true ->
  last (mr_hist s) = Some prev ->
  mr_iter Afun B rank tol par nrm FM s = Ok f ->
  exists omega,
    mr_omega par nrm s = Ok omega /\
    mr_kit (flow_state f) = S (mr_kit s) /\
    mr_x (flow_state f) =
      mean_correct rank tol FM (tadd (mr_x s) (tscale (mr_residuum s) omega)) /\
    mr_norm_res (flow_state f) = nrm (mr_residuum (flow_state f)) /\
    ((prev < mr_norm_res (flow_state f) /\ f = Break (flow_state f) /\
      mr_hist (flow_state f) = mr_hist s) \/
     (mr_norm_res (flow_state f) <= prev /\ f = Next (flow_state f) /\
      mr_hist (flow_state f) = mr_hist s ++ [mr_norm_res (flow_state f)])).
Proof.
  intros Hreach Ed Ht Hl E.
  apply mr_reachable_length in Hreach.
  apply mr_iter_Ok in E.
  destruct E as (omega & residuum & dc' & diverging & Eo & _ & Ed' & Ev & E).
  cbv zeta in *.
  rewrite Ed in Ed'. injection Ed' as <-.
  apply py_and_Ok in Ev. destruct Ev as [[_ Ev] | [Hf _]]; [|congruence].
  rewrite (hist_index_last _ _ _ Hreach Hl) in Ev. simpl in Ev. injection Ev as <-.
  exists omega. split; [exact Eo|].
  destruct (Qltb prev (nrm residuum)) eqn:El.
  - subst f. simpl. repeat split; auto.
    left. apply Qltb_lt in El. auto.
  - destruct E as (beta & _ & ->). simpl. repeat split; auto.
    right. apply Qltb_ge in El. auto.
Qed.

Lemma mr_init_x (s0 : mr_state T) :
  mr_init Afun B x0 norm = Ok s0 -> mr_x s0 = initial_guess x0 B.
Proof.
  unfold mr_init. intros E.
  apply bind_Ok in E. destruct E as (Ax & EA & E).
  apply bind_Ok in E. destruct E as (beta & Eb & E).
  apply bind_Ok in E. destruct E as (norm_res & En & [= <-]).
  reflexivity.
Qed.

Lemma mr_init_hist (s0 : mr_state T) :
  mr_init Afun B x0 norm = Ok s0 -> exists a, mr_hist s0 = [a].
Proof.
  unfold mr_init. intros E.
  apply bind_Ok in E. destruct E as (Ax & EA & E).
  apply bind_Ok in E. destruct E as (beta & Eb & E).
  apply bind_Ok in E. destruct E as (norm_res & En & [= <-]).
  simpl. eauto.
Qed.

Lemma nonempty_last (h : list Q) (n : nat) : length h = S n -> exists a, last h = Some a.
Proof.
  intros E. rewrite last_lookup, E. simpl.
  apply lookup_lt_is_Some. lia.
Qed.

(** C4 (as amended). In [minimal_residual] with [par['divcrit']] set, a
    pass whose new residual norm exceeds the last recorded one ends the
    loop before that norm is recorded, so the history handed back holds no
    entry above the one before it; the iterate handed back is the one this
    very pass has already updated and mean-corrected, not the iterate of
    the pass before. *)
Theorem minres_divergence_stop (dc : pyval) :
  getitem par "divcrit" = Ok dc -> truthy dc = true ->
  (forall (s : mr_state T) f prev,
     mr_reachable Afun B x0 rank tol par norm FM s ->
     mr_guard par s = Ok true ->
     last (mr_hist s) = Some prev ->
     mr_iter Afun B rank tol par nrm FM s = Ok f ->
     prev < mr_norm_res (flow_state f) ->
     exists omega,
       mr_omega par nrm s = Ok omega /\
       mr_hist (flow_state f) = mr_hist s /\
       mr_x (flow_state f) =
         mean_correct rank tol FM (tadd (mr_x s) (tscale (mr_residuum s) omega)) /\
       forall fuel,
         while (mr_guard par) (mr_iter Afun B rank tol par nrm FM) (S fuel) s
           = Ok (flow_state f)) /\
  (forall sol,
     FM = const_field (initial_guess x0 B) ->
     minimal_residual Afun B x0 rank tol par norm = Ok sol ->
     exists h,
       sol_norm_res sol = NormList h /\ nonincreasing h /\
       (sol_kit sol = length h ->
        exists (s : mr_state T) omega,
          mr_reachable Afun B x0 rank tol par norm FM s /\
          mr_hist s = h /\ sol_kit sol = S (mr_kit s) /\
          mr_omega par nrm s = Ok omega /\
          sol_x sol =
            mean_correct rank tol FM (tadd (mr_x s) (tscale (mr_residuum s) omega)))).
Proof.
  intros Ed Ht. split.
  - intros s f prev Hreach Hg Hl E Hlt.
    destruct (mr_iter_divcrit s f dc prev Hreach Ed Ht Hl E)
      as (omega & Eo & _ & Ex & _ & [(_ & Ef & Eh) | (Hle & _ & _)]).
    + exists omega. repeat split; auto.
      intros fuel. apply while_break; [exact Hg|]. rewrite <- Ef. exact E.
    + exfalso. exact (Qlt_not_le _ _ Hlt Hle).
  - intros sol HFM E. unfold minimal_residual in E.
    apply bind_Ok in E. destruct E as (s0 & E0 & E).
    apply bind_Ok in E. destruct E as (r & Ew & [= <-]). simpl.
    rewrite (mr_init_x _ E0), <- HFM in Ew. fold nrm in Ew.
    exists (mr_hist r). split; [reflexivity|].
    eapply (while_invariant _ _
      (fun s => mr_reachable Afun B x0 rank tol par norm FM s /\ nonincreasing (mr_hist s))
      (fun r => nonincreasing (mr_hist r) /\
         (mr_kit r = length (mr_hist r) ->
          exists (s : mr_state T) omega,
            mr_reachable Afun B x0 rank tol par norm FM s /\
            mr_hist s = mr_hist r /\ mr_kit r = S (mr_kit s) /\
            mr_omega par nrm s = Ok omega /\
            mr_x r =
              mean_correct rank tol FM (tadd (mr_x s) (tscale (mr_residuum s) omega)))));
      [ | | | | exact Ew].
    + intros s s' [Hreach Hni] Hg E.
      split; [eapply mr_reach_next; eauto|].
      destruct (nonempty_last _ _ (mr_reachable_length _ Hreach)) as (prev & Hl).
      destruct (mr_iter_divcrit s _ dc prev Hreach Ed Ht Hl E)
        as (omega & _ & _ & _ & _ & [(_ & Ef & _) | (Hle & _ & Eh)]);
        [discriminate|].
      simpl in *. rewrite Eh. eapply nonincreasing_snoc; eauto.
    + intros s s' [Hreach Hni] Hg E.
      destruct (nonempty_last _ _ (mr_reachable_length _ Hreach)) as (prev & Hl).
      destruct (mr_iter_divcrit s _ dc prev Hreach Ed Ht Hl E)
        as (omega & Eo & Ek & Ex & _ & [(_ & _ & Eh) | (_ & Ef & _)]);
        [|discriminate].
      simpl in *. rewrite Eh. split; [exact Hni|].
      intros _. exists s, omega. auto.
    + intros s [Hreach Hni] _. split; [exact Hni|].
      intros Hk. apply mr_reachable_length in Hreach. lia.
    + split; [apply mr_reach_init; exact E0|].
      destruct (mr_init_hist _ E0) as (a & ->). apply nonincreasing_singleton.
Qed.

(** The step size, whenever the norm of [beta] is not zero: the ratio of
    the norms when [par['approx_omega']] is set; otherwise the exact
    value, and the ratio in its place exactly when its magnitude is below
    [1e-1]. *)
Lemma mr_omega_value (s : mr_state T) ao :
  mr_reachable Afun B x0 rank tol par norm FM s ->
  getitem par "approx_omega" = Ok ao ->
  ~ nrm (mr_beta s) == 0 ->
  let ratio := nrm (mr_residuum s) / nrm (mr_beta s) in
  let exact := tinner (mr_beta s) (mr_residuum s) / nrm (mr_beta s) ^ 2 in
  mr_omega par nrm s =
    Ok (if truthy ao then ratio
        else if Qltb (Qabs exact) (1 # 10) then ratio else exact).
Proof.
  intros Hreach Ea Hnz ratio exact.
  apply mr_reachable_inv in Hreach. destruct Hreach as [Hn _].
  unfold mr_omega. rewrite Ea, Hn. cbn [bind].
  assert (Hnz2 : ~ nrm (mr_beta s) ^ 2 == 0).
  { intros E. apply Hnz.
    assert (E' : nrm (mr_beta s) * nrm (mr_beta s) == 0).
    { rewrite <- E. simpl. ring. }
    apply Qmult_integral in E'. tauto. }
  destruct (truthy ao).
  - apply pydiv_nonzero. exact Hnz.
  - rewrite (pydiv_nonzero _ _ Hnz2). cbn [bind]. fold exact.
    destruct (Qltb (Qabs exact) (1 # 10)); [|reflexivity].
    apply pydiv_nonzero. exact Hnz.
Qed.

(** C3. In every pass of the loop of [minimal_residual] in which the norm
    of [beta] is not zero, the step size [omega] is computed, and it is the
    ratio of the norms of [residuum] and [beta] when [par['approx_omega']]
    is set; otherwise it is the exact value
    [<beta, residuum> / ||beta||^2], replaced by that ratio exactly when
    its magnitude is below [1e-1]. The pass updates the iterate, and the
    residual it carries along, with that [omega]; and it does complete
    when the operator raises nothing and [par['divcrit']] is there. *)
Theorem minres_step_size (s : mr_state T) ao :
  mr_reachable Afun B x0 rank tol par norm FM s ->
  getitem par "approx_omega" = Ok ao ->
  ~ nrm (mr_beta s) == 0 ->
  let ratio := nrm (mr_residuum s) / nrm (mr_beta s) in
  let exact := tinner (mr_beta s) (mr_residuum s) / nrm (mr_beta s) ^ 2 in
  exists omega,
    mr_omega par nrm s = Ok omega /\
    (truthy ao = true -> omega = ratio) /\
    (truthy ao = false ->
       (Qabs exact < 1 # 10 -> omega = ratio) /\
       (~ Qabs exact < 1 # 10 -> omega = exact)) /\
    (forall f,
       mr_iter Afun B rank tol par nrm FM s = Ok f ->
       mr_x (flow_state f) =
         mean_correct rank tol FM (tadd (mr_x s) (tscale (mr_residuum s) omega)) /\
       ((S (mr_kit s) mod 10 =? 0)%nat = false ->
        mr_residuum (flow_state f) =
          truncate rank tol (tsub (mr_residuum s) (tscale (mr_beta s) omega)))) /\
    ((forall x, exists y, Afun x = Ok y) ->
     (exists dc, getitem par "divcrit" = Ok dc) ->
     exists f, mr_iter Afun B rank tol par nrm FM s = Ok f).
Proof.
  intros Hreach Ea Hnz ratio exact.
  pose proof (mr_omega_value s ao Hreach Ea Hnz) as Eo. cbv zeta in Eo.
  fold ratio exact in Eo.
  eexists. split; [exact Eo|].
  split; [|split; [|split]].
  - intros ->. reflexivity.
  - intros ->. destruct (Qltb (Qabs exact) (1 # 10)) eqn:El.
    + apply Qltb_lt in El. tauto.
    + split; [|reflexivity].
      intros Hlt. apply Qltb_lt in Hlt. congruence.
  - intros f E. apply mr_iter_Ok in E.
    destruct E as (omega & residuum & dc & diverging & Eo' & Er & _ & _ & E).
    cbv zeta in Er.
    rewrite Eo in Eo'. injection Eo' as <-.
    split.
    + destruct diverging; [subst f; reflexivity|].
      destruct E as (beta & _ & ->). reflexivity.
    + intros Hk. rewrite Hk in Er.
      destruct diverging; [subst f; exact Er|].
      destruct E as (beta & _ & ->). exact Er.
  - intros HA (dc & Ed).
    pose proof (mr_reachable_length s Hreach) as Hlen.
    destruct (nonempty_last _ _ Hlen) as (prev & Hl).
    unfold mr_iter. rewrite Eo. cbn [bind].
    match goal with
    | |- context [bind (if ?b then _ else _) _] => destruct b
    end.
    + match goal with |- context [Afun ?y] => destruct (HA y) as (Ax & ->) end.
      cbn [bind]. rewrite Ed. cbn [bind].
      unfold py_and. rewrite (hist_index_last _ _ _ Hlen Hl). cbn [bind].
      destruct (truthy dc); cbn [bind].
      * match goal with |- context [Qltb prev ?a] => destruct (Qltb prev a) end.
        -- eauto.
        -- match goal with |- context [Afun ?y] => destruct (HA y) as (Ay & ->) end.
           cbn [bind]. eauto.
      * match goal with |- context [Afun ?y] => destruct (HA y) as (Ay & ->) end.
        cbn [bind]. eauto.
    + cbn [bind]. rewrite Ed. cbn [bind].
      unfold py_and. rewrite (hist_index_last _ _ _ Hlen Hl). cbn [bind].
      destruct (truthy dc); cbn [bind].
      * match goal with |- context [Qltb prev ?a] => destruct (Qltb prev a) end.
        -- eauto.
        -- match goal with |- context [Afun ?y] => destruct (HA y) as (Ay & ->) end.
           cbn [bind]. eauto.
      * match goal with |- context [Afun ?y] => destruct (HA y) as (Ay & ->) end.
        cbn [bind]. eauto.
Qed.

End MinresFacts.

(** ** richardson and richardson_debug *)

Lemma richardson_omega_Ok par omega :
  richardson_omega par = Ok omega <->
  exists a, getitem par "alpha" = Ok (PyFloat a) /\ ~ a == 0 /\ omega = 1 / a.
Proof.
  unfold richardson_omega. split.
  - intros E. apply bind_Ok in E. destruct E as (alpha & Ea & E).
    destruct alpha; simpl in E; try discriminate.
    apply pydiv_Ok in E. destruct E as [Hq ->]. eauto.
  - intros (a & -> & Hq & ->). simpl. apply pydiv_nonzero. exact Hq.
Qed.

Lemma richardson_omega_ValueError par :
  richardson_omega par = Raise ValueError <->
  exists alpha, getitem par "alpha" = Ok alpha /\ is_float alpha = false.
Proof.
  unfold richardson_omega. split.
  - intros E. apply bind_Raise in E. destruct E as [E | (alpha & Ea & E)].
    + apply getitem_raises in E. destruct E; discriminate.
    + exists alpha. split; [exact Ea|].
      destruct alpha; simpl in *; try reflexivity.
      apply pydiv_raises in E. discriminate.
  - intros (alpha & -> & Hf). simpl. rewrite Hf. reflexivity.
Qed.

Section RichardsonFacts.

Context {T : Type} `{TensorOps T}.
Variable Afun : T -> outcome T.
Variable B : T.
Variable x0 : option T.
Variable rank : option nat.
Variable tol : option Q.
Variable par : option (gmap string pyval).
Variable norm : option (T -> Q).
Variable FM : T.
Variable omega : Q.

Let nrm : T -> Q := ri_norm norm.

(** What a pass of the loop body that does not raise has done. *)
Lemma ri_iter_Ok (s : ri_state T) f :
  ri_iter Afun B rank tol par nrm FM omega s = Ok f ->
  exists Ax dc (diverging : bool),
    let kit := S (ri_kit s) in
    let residuum := tsub B Ax in
    let norm_res := nrm residuum in
    Afun (ri_x s) = Ok Ax /\
    getitem par "divcrit" = Ok dc /\
    py_and dc (let* prev := hist_index (ri_hist s) (kit - 1) in Ok (Qltb prev norm_res))
      = Ok diverging /\
    f = if diverging then Break (mkRI kit (ri_hist s) (ri_x s) norm_res)
        else Next (mkRI kit (ri_hist s ++ [norm_res])
                     (mean_correct rank tol FM (tadd (ri_x s) (tscale residuum omega)))
                     norm_res).
Proof.
  unfold ri_iter. intros E.
  apply bind_Ok in E. destruct E as (Ax & EA & E).
  apply bind_Ok in E. destruct E as (dc & Ed & E).
  apply bind_Ok in E. destruct E as (diverging & Ev & E).
  exists Ax, dc, diverging. cbv zeta.
  repeat (split; [assumption|]).
  destruct diverging; congruence.
Qed.

Lemma ri_reachable_length (s : ri_state T) :
  ri_reachable Afun B x0 rank tol par norm FM omega s ->
  length (ri_hist s) = S (ri_kit s).
Proof.
  induction 1 as [| s s' _ IH _ E].
  - reflexivity.
  - apply ri_iter_Ok in E. destruct E as (Ax & dc & diverging & _ & _ & _ & E).
    destruct diverging; [discriminate|].
    injection E as ->. simpl. rewrite length_app, IH. simpl. lia.
Qed.

(** With [par['divcrit']] set, a pass of the loop either finds the norm of
    the fresh residual above the last recorded one and breaks, leaving
    iterate and history as they were, or updates the iterate and records a
    norm that is not above it. *)
Lemma ri_iter_divcrit (s : ri_state T) f dc prev :
  ri_reachable Afun B x0 rank tol par norm FM omega s ->
  getitem par "divcrit" = Ok dc -> truthy dc = true ->
  last (ri_hist s) = Some prev ->
  ri_iter Afun B rank tol par nrm FM omega s = Ok f ->
  exists Ax,
    Afun (ri_x s) = Ok Ax /\
    ((prev < nrm (tsub B Ax) /\
      f = Break (mkRI (S (ri_kit s)) (ri_hist s) (ri_x s) (nrm (tsub B Ax)))) \/
     (nrm (tsub B Ax) <= prev /\
      f = Next (mkRI (S (ri_kit s)) (ri_hist s ++ [nrm (tsub B Ax)])
                 (mean_correct rank tol FM (tadd (ri_x s) (tscale (tsub B Ax) omega)))
                 (nrm (tsub B Ax))))).
Proof.
  intros Hreach Ed Ht Hl E.
  apply ri_reachable_length in Hreach.
  apply ri_iter_Ok in E. destruct E as (Ax & dc' & diverging & EA & Ed' & Ev & E).
  cbv zeta in *.
  rewrite Ed in Ed'. injection Ed' as <-.
  apply py_and_Ok in Ev. destruct Ev as [[_ Ev] | [Hf _]]; [|congruence].
  rewrite (hist_index_last _ _ _ Hreach Hl) in Ev. simpl in Ev. injection Ev as <-.
  exists Ax. split; [exact EA|].
  destruct (Qltb prev (nrm (tsub B Ax))) eqn:El.
  - left. apply Qltb_lt in El. auto.
  - right. apply Qltb_ge in El. auto.
Qed.

(** C5. In [richardson] with [par['divcrit']] set, a pass in which the
    norm of the fresh residual [B - A(x)] exceeds the last history entry
    ends the loop with the iterate and the history untouched; so the
    history handed back has no entry above the one before it, and the
    iterate handed back is the one the last recorded pass left (the initial
    one if no pass was recorded). *)
Theorem richardson_divergence_stop (dc : pyval) :
  getitem par "divcrit" = Ok dc -> truthy dc = true ->
  (forall (s : ri_state T) Ax prev,
     ri_reachable Afun B x0 rank tol par norm FM omega s ->
     ri_guard par s = Ok true ->
     last (ri_hist s) = Some prev ->
     Afun (ri_x s) = Ok Ax ->
     prev < nrm (tsub B Ax) ->
     forall fuel,
       while (ri_guard par) (ri_iter Afun B rank tol par nrm FM omega) (S fuel) s
         = Ok (mkRI (S (ri_kit s)) (ri_hist s) (ri_x s) (nrm (tsub B Ax)))) /\
  (forall sol,
     FM = const_field (initial_guess x0 (tscale B omega)) ->
     richardson_omega par = Ok omega ->
     richardson Afun B x0 rank tol par norm = Ok sol ->
     exists h,
       sol_norm_res sol = NormList h /\ nonincreasing h /\
       exists s : ri_state T,
         ri_reachable Afun B x0 rank tol par norm FM omega s /\
         ri_hist s = h /\ ri_x s = sol_x sol).
Proof.
  intros Ed Ht. split.
  - intros s Ax prev Hreach Hg Hl EA Hlt fuel.
    apply while_break; [exact Hg|].
    unfold ri_iter. rewrite EA. cbn [bind]. rewrite Ed. cbn [bind].
    unfold py_and. rewrite Ht.
    rewrite (hist_index_last _ _ _ (ri_reachable_length _ Hreach) Hl). cbn [bind].
    apply Qltb_lt in Hlt. fold nrm. rewrite Hlt. reflexivity.
  - intros sol HFM Eo E. unfold richardson in E. rewrite Eo in E. cbn [bind] in E.
    unfold richardson_run in E.
    apply bind_Ok in E. destruct E as (r & Ew & [= <-]). simpl.
    change (ri_x (ri_init B x0 (ri_norm norm) omega))
      with (initial_guess x0 (tscale B omega)) in Ew.
    rewrite <- HFM in Ew. fold nrm in Ew.
    exists (ri_hist r). split; [reflexivity|].
    eapply (while_invariant _ _
      (fun s => ri_reachable Afun B x0 rank tol par norm FM omega s /\
                nonincreasing (ri_hist s))
      (fun r => nonincreasing (ri_hist r) /\
         exists s : ri_state T,
           ri_reachable Afun B x0 rank tol par norm FM omega s /\
           ri_hist s = ri_hist r /\ ri_x s = ri_x r));
      [ | | | | exact Ew].
    + intros s s' [Hreach Hni] Hg E.
      split; [eapply ri_reach_next; eauto|].
      destruct (nonempty_last _ _ (ri_reachable_length _ Hreach)) as (prev & Hl).
      destruct (ri_iter_divcrit s _ dc prev Hreach Ed Ht Hl E)
        as (Ax & _ & [(_ & Ef) | (Hle & Ef)]); [discriminate|].
      injection Ef as ->. simpl. eapply nonincreasing_snoc; eauto.
    + intros s s' [Hreach Hni] Hg E.
      destruct (nonempty_last _ _ (ri_reachable_length _ Hreach)) as (prev & Hl).
      destruct (ri_iter_divcrit s _ dc prev Hreach Ed Ht Hl E)
        as (Ax & _ & [(_ & Ef) | (_ & Ef)]); [|discriminate].
      injection Ef as ->. simpl. split; [exact Hni|]. eauto.
    + intros s [Hreach Hni] _. eauto.
    + split; [apply ri_reach_init|]. apply nonincreasing_singleton.
Qed.

End RichardsonFacts.

Section RichardsonResult.

Context {T : Type} `{TensorOps T}.
Variable Afun : T -> outcome T.
Variable B : T.
Variable x0 : option T.
Variable rank : option nat.
Variable tol : option Q.
Variable par : option (gmap string pyval).
Variable norm : option (T -> Q).
Variable omega : Q.

(** With numbers for [par['tol']] and [par['maxiter']], a value for
    [par['divcrit']] and an operator that raises nothing, the loop of
    [richardson] ends and the solver hands back a result. *)
Lemma richardson_run_succeeds t qt m qm dc :
  (forall x, exists y, Afun x = Ok y) ->
  getitem par "tol" = Ok t -> as_number t = Some qt ->
  getitem par "maxiter" = Ok m -> as_number m = Some qm ->
  getitem par "divcrit" = Ok dc ->
  exists sol, richardson_run Afun B x0 rank tol par norm omega = Ok sol.
Proof.
  intros HA Et Eqt Em Eqm Ed.
  unfold richardson_run.
  destruct (while_succeeds (ri_guard par)
              (ri_iter Afun B rank tol par (ri_norm norm)
                 (const_field (ri_x (ri_init B x0 (ri_norm norm) omega))) omega)
              (fun s => length (ri_hist s) = S (ri_kit s)) ri_kit (maxiter_fuel par))
    with (fuel := maxiter_fuel par) (s := ri_init B x0 (ri_norm norm) omega) as (r & Er).
  - intros s _. unfold ri_guard, loop_guard, py_gt, py_lt.
    rewrite Et. cbn [bind]. rewrite Eqt. cbn [bind].
    destruct (Qltb qt (ri_norm_res s)); [|eauto].
    rewrite Em. cbn [bind]. rewrite Eqm. eauto.
  - intros s Hlen _. unfold ri_iter.
    destruct (HA (ri_x s)) as (Ax & ->). cbn [bind]. rewrite Ed. cbn [bind].
    unfold py_and, hist_index.
    replace (S (ri_kit s) - 1)%nat with (ri_kit s) by lia.
    destruct (lookup_lt_is_Some_2 (ri_hist s) (ri_kit s) ltac:(lia)) as (prev & ->).
    cbn [bind].
    destruct (truthy dc); cbn [bind];
      [destruct (Qltb prev ((ri_norm norm) (tsub B Ax)))|];
      eexists; (split; [reflexivity|]); intros s' [= <-]; simpl;
      rewrite length_app; simpl; lia.
  - intros s. apply loop_guard_bound.
  - intros s s' E. apply ri_iter_Ok in E.
    destruct E as (Ax & dc' & diverging & _ & _ & _ & E).
    destruct diverging; [discriminate|]. injection E as ->. reflexivity.
  - reflexivity.
  - simpl. lia.
  - rewrite Er. cbn [bind]. eauto.
Qed.

End RichardsonResult.

Section RichardsonErrors.

Context {T : Type} `{TensorOps T}.
Variable Afun : T -> outcome T.
Variable B : T.
Variable x0 : option T.
Variable rank : option nat.
Variable tol : option Q.
Variable par : option (gmap string pyval).
Variable norm : option (T -> Q).

(** An exception [e] that neither Python's own operations nor the
    operator raise. *)
Variable e : exn.
Hypothesis e_foreign : ~ runtime_error e.
Hypothesis Afun_e : forall x, Afun x <> Raise e.

Lemma ri_guard_foreign (s : ri_state T) : ri_guard par s <> Raise e.
Proof.
  unfold ri_guard. intros E. apply loop_guard_raises in E.
  apply e_foreign. unfold runtime_error. tauto.
Qed.

Lemma ri_iter_foreign nrm FM omega (s : ri_state T) :
  ri_iter Afun B rank tol par nrm FM omega s <> Raise e.
Proof.
  unfold ri_iter. intros E.
  apply bind_Raise in E. destruct E as [E | (Ax & _ & E)].
  { exact (Afun_e _ E). }
  apply bind_Raise in E. destruct E as [E | (dc & _ & E)].
  { apply getitem_raises in E. apply e_foreign. unfold runtime_error. tauto. }
  apply bind_Raise in E. destruct E as [E | (diverging & _ & E)].
  - unfold py_and in E. destruct (truthy dc); [|discriminate].
    apply bind_Raise in E. destruct E as [E | (prev & _ & E)]; [|discriminate].
    apply hist_index_raises in E. apply e_foreign. unfold runtime_error. tauto.
  - destruct diverging; discriminate.
Qed.

Lemma richardson_run_foreign omega :
  richardson_run Afun B x0 rank tol par norm omega <> Raise e.
Proof.
  unfold richardson_run. intros E.
  apply bind_Raise in E. destruct E as [E | (s & _ & E)]; [|discriminate].
  revert E. apply while_raises.
  - apply ri_guard_foreign.
  - intros s. apply ri_iter_foreign.
Qed.

Lemma richardson_debug_run_foreign omega :
  richardson_debug_run Afun B x0 rank tol par norm omega <> Raise e.
Proof.
  unfold richardson_debug_run. intros E.
  apply bind_Raise in E. destruct E as [E | (s & _ & E)].
  - revert E. apply while_raises.
    + apply ri_guard_foreign.
    + intros s. unfold rd_iter. intros E.
      apply bind_Raise in E. destruct E as [E | (Ax & _ & E)]; [|discriminate].
      exact (Afun_e _ E).
  - apply bind_Raise in E. destruct E as [E | (Ax & _ & E)]; [|discriminate].
    exact (Afun_e _ E).
Qed.

End RichardsonErrors.

Section RichardsonAlpha.

Context {T : Type} `{TensorOps T}.
Variable Afun : T -> outcome T.
Variable B : T.
Variable x0 : option T.
Variable rank : option nat.
Variable tol : option Q.
Variable par : option (gmap string pyval).
Variable norm : option (T -> Q).

(** C9 (as amended). [richardson] and [richardson_debug] raise
    [ValueError] if and only if [par['alpha']] is not an instance of
    [float] (an operator that raises this exception itself set aside),
    and they do so before anything is computed, whatever the operator and
    the data; when [par['alpha']] is a float other than zero they go on
    with the step size [omega = 1/alpha]. *)
Theorem richardson_alpha_check (alpha : pyval) :
  getitem par "alpha" = Ok alpha ->
  (forall x, Afun x <> Raise ValueError) ->
  ((richardson Afun B x0 rank tol par norm = Raise ValueError <-> is_float alpha = false) /\
   (richardson_debug Afun B x0 rank tol par norm = Raise ValueError
      <-> is_float alpha = false)) /\
  (is_float alpha = false ->
   forall (Afun' : T -> outcome T) B' x0' rank' tol' norm',
     richardson Afun' B' x0' rank' tol' par norm' = Raise ValueError /\
     richardson_debug Afun' B' x0' rank' tol' par norm' = Raise ValueError) /\
  (forall a, alpha = PyFloat a -> ~ a == 0 ->
     richardson Afun B x0 rank tol par norm
       = richardson_run Afun B x0 rank tol par norm (1 / a) /\
     richardson_debug Afun B x0 rank tol par norm
       = richardson_debug_run Afun B x0 rank tol par norm (1 / a)).
Proof.
  intros Ea HA.
  assert (Hforeign : ~ runtime_error ValueError).
  { unfold runtime_error. intros [?|[?|[?|[?|?]]]]; discriminate. }
  assert (Himm : is_float alpha = false ->
    forall (Afun' : T -> outcome T) B' x0' rank' tol' norm',
      richardson Afun' B' x0' rank' tol' par norm' = Raise ValueError /\
      richardson_debug Afun' B' x0' rank' tol' par norm' = Raise ValueError).
  { intros Hf Afun' B' x0' rank' tol' norm'.
    assert (Eo : richardson_omega par = Raise ValueError).
    { apply richardson_omega_ValueError. eauto. }
    unfold richardson, richardson_debug. rewrite Eo. auto. }
  assert (Honly : forall k : Q -> outcome (solution T),
    (forall omega, k omega <> Raise ValueError) ->
    bind (richardson_omega par) k = Raise ValueError -> is_float alpha = false).
  { intros k Hk E. apply bind_Raise in E. destruct E as [E | (omega & _ & E)].
    - apply richardson_omega_ValueError in E. destruct E as (alpha' & Ea' & Hf).
      congruence.
    - exfalso. exact (Hk _ E). }
  split; [split; split|split].
  - apply Honly. intros omega. apply richardson_run_foreign; auto.
  - intros Hf. apply Himm. exact Hf.
  - apply Honly. intros omega. apply richardson_debug_run_foreign; auto.
  - intros Hf. apply Himm. exact Hf.
  - exact Himm.
  - intros a -> Hq.
    assert (Eo : richardson_omega par = Ok (1 / a)).
    { apply richardson_omega_Ok. eauto. }
    unfold richardson, richardson_debug. rewrite Eo. auto.
Qed.

End RichardsonAlpha.

(** ** The mean correction *)

Section MeanCorrection.

Context {T : Type} `{TensorOps T}.
Variable Afun : T -> outcome T.
Variable B : T.
Variable x0 : option T.
Variable rank : option nat.
Variable tol : option Q.
Variable eps : Q.
Context `{!MeanLaws T rank tol eps}.

(** Before truncation the corrected field has mean zero. *)
Lemma mean_corrected_zero (y x : T) :
  tmean (tadd (tscale (tneg (const_field y)) (tmean x)) x) == 0.
Proof.
  rewrite mean_add, mean_scale, mean_neg, mean_const_field.
  ring.
Qed.

(** After truncation its mean is within the truncation tolerance. *)
Lemma mean_correct_small (y x : T) :
  Qabs (tmean (mean_correct rank tol (const_field y) x)) <= eps.
Proof.
  unfold mean_correct.
  pose proof (mean_truncate (tadd (tscale (tneg (const_field y)) (tmean x)) x)) as Ht.
  rewrite mean_corrected_zero in Ht.
  unfold Qminus in Ht. rewrite Qplus_0_r in Ht. exact Ht.
Qed.

Lemma cheby_iter_mean callback y d c r0 (s s' : cheby_state T) :
  cheby_iter Afun B rank tol callback (const_field y) d c r0 s = Ok (Next s') ->
  Qabs (tmean (ch_x s')) <= eps.
Proof.
  unfold cheby_iter. intros E.
  apply bind_Ok in E. destruct E as ([p w] & _ & E).
  apply bind_Ok in E. destruct E as (Ax & _ & E).
  apply bind_Ok in E. destruct E as (Ir0 & _ & E).
  apply bind_Ok in E. destruct E as (u & _ & [= <-]).
  simpl. apply mean_correct_small.
Qed.

Lemma mr_iter_mean par norm y (s : mr_state T) f :
  mr_iter Afun B rank tol par (mr_norm norm) (const_field y) s = Ok f ->
  Qabs (tmean (mr_x (flow_state f))) <= eps.
Proof.
  intros E. apply mr_iter_Ok in E.
  destruct E as (omega & residuum & dc & diverging & _ & _ & _ & _ & E).
  destruct diverging.
  - subst f. simpl. apply mean_correct_small.
  - destruct E as (beta & _ & ->). simpl. apply mean_correct_small.
Qed.

Lemma ri_iter_mean par norm y omega (s s' : ri_state T) :
  ri_iter Afun B rank tol par (ri_norm norm) (const_field y) omega s = Ok (Next s') ->
  Qabs (tmean (ri_x s')) <= eps.
Proof.
  intros E. apply ri_iter_Ok in E.
  destruct E as (Ax & dc & diverging & _ & _ & _ & E).
  destruct diverging; [discriminate|].
  injection E as ->. simpl. apply mean_correct_small.
Qed.

(** C2 (as amended). In [cheby2TERM], [minimal_residual] and
    [richardson] every pass that updates the iterate ends the update with
    [x = (-FM*x.mean()+x).truncate(...)]; with a linear mean, a constant
    field of mean one and a truncation that moves the mean by no more than
    the tolerance [eps], the mean of the iterate is zero within [eps] after
    every such pass, and so is that of the iterate that
    [minimal_residual] returns after at least one pass and that
    [richardson] returns after at least one recorded pass.
    ([richardson_debug] makes no mean correction.) *)
Theorem mean_correction_applied (par : option (gmap string pyval))
    (norm : option (T -> Q)) (callback : option (T -> outcome unit)) :
  (forall y d c r0 (s s' : cheby_state T),
     cheby_iter Afun B rank tol callback (const_field y) d c r0 s = Ok (Next s') ->
     Qabs (tmean (ch_x s')) <= eps) /\
  (forall y (s : mr_state T) f,
     mr_iter Afun B rank tol par (mr_norm norm) (const_field y) s = Ok f ->
     Qabs (tmean (mr_x (flow_state f))) <= eps) /\
  (forall y omega (s s' : ri_state T),
     ri_iter Afun B rank tol par (ri_norm norm) (const_field y) omega s = Ok (Next s') ->
     Qabs (tmean (ri_x s')) <= eps) /\
  (forall sol,
     minimal_residual Afun B x0 rank tol par norm = Ok sol ->
     (1 <= sol_kit sol)%nat ->
     Qabs (tmean (sol_x sol)) <= eps) /\
  (forall sol h,
     richardson Afun B x0 rank tol par norm = Ok sol ->
     sol_norm_res sol = NormList h ->
     (2 <= length h)%nat ->
     Qabs (tmean (sol_x sol)) <= eps).
Proof.
  split; [|split; [|split; [|split]]].
  - intros y d c r0 s s'. apply cheby_iter_mean.
  - intros y s f. apply mr_iter_mean.
  - intros y omega s s'. apply ri_iter_mean.
  - intros sol E Hk. unfold minimal_residual in E.
    apply bind_Ok in E. destruct E as (s0 & E0 & E).
    apply bind_Ok in E. destruct E as (r & Ew & [= <-]). simpl in *.
    revert Hk.
    eapply (while_invariant _ _
      (fun s : mr_state T => (1 <= mr_kit s)%nat -> Qabs (tmean (mr_x s)) <= eps)
      (fun s : mr_state T => (1 <= mr_kit s)%nat -> Qabs (tmean (mr_x s)) <= eps));
      [ | | | | exact Ew].
    + intros s s' _ _ E _. apply mr_iter_mean in E. exact E.
    + intros s s' _ _ E _. apply mr_iter_mean in E. exact E.
    + auto.
    + unfold mr_init in E0.
      apply bind_Ok in E0. destruct E0 as (Ax & _ & E0).
      apply bind_Ok in E0. destruct E0 as (beta & _ & E0).
      apply bind_Ok in E0. destruct E0 as (norm_res & _ & [= <-]).
      simpl. lia.
  - intros sol h E Eh Hlen. unfold richardson in E.
    apply bind_Ok in E. destruct E as (omega & _ & E).
    unfold richardson_run in E.
    apply bind_Ok in E. destruct E as (r & Ew & [= <-]). simpl in *.
    injection Eh as <-. revert Hlen.
    eapply (while_invariant _ _
      (fun s : ri_state T => (2 <= length (ri_hist s))%nat -> Qabs (tmean (ri_x s)) <= eps)
      (fun s : ri_state T => (2 <= length (ri_hist s))%nat -> Qabs (tmean (ri_x s)) <= eps));
      [ | | | | exact Ew].
    + intros s s' _ _ E _. apply ri_iter_mean in E. exact E.
    + intros s s' HP _ E. apply ri_iter_Ok in E.
      destruct E as (Ax & dc & diverging & _ & _ & _ & E).
      destruct diverging; [|discriminate].
      injection E as ->. simpl. exact HP.
    + auto.
    + simpl. lia.
Qed.

End MeanCorrection.

(** ** The fuel is enough

    When the operator and the callback come back, each solver comes back
    too (with a result or an exception): the fuel read off
    [par['maxiter']] never runs out. *)

Section Termination.

Context {T : Type} `{TensorOps T}.
Variable Afun : T -> outcome T.
Variable B : T.
Variable x0 : option T.
Variable rank : option nat.
Variable tol : option Q.
Variable callback : option (T -> outcome unit).

Hypothesis Afun_returns : forall x, Afun x <> OutOfFuel.
Hypothesis callback_returns : forall cb x, callback = Some cb -> cb x <> OutOfFuel.

Lemma cheby_iter_fuel FM d c r0 (s : cheby_state T) :
  cheby_iter Afun B rank tol callback FM d c r0 s <> OutOfFuel.
Proof.
  unfold cheby_iter. intros E.
  apply bind_OutOfFuel in E. destruct E as [E | ([p w] & _ & E)].
  { exact (cheby_coeffs_fuel _ _ _ _ E). }
  apply bind_OutOfFuel in E. destruct E as [E | (Ax & _ & E)].
  { exact (Afun_returns _ E). }
  apply bind_OutOfFuel in E. destruct E as [E | (Ir0 & _ & E)].
  { exact (pydiv_fuel _ _ E). }
  apply bind_OutOfFuel in E. destruct E as [E | (u & _ & E)]; [|discriminate].
  destruct callback as [cb|]; [|discriminate].
  exact (callback_returns cb _ eq_refl E).
Qed.

Lemma cheby_dc_fuel Egv : cheby_dc Egv <> OutOfFuel.
Proof.
  assert (Hi : forall i, py_index Egv i <> OutOfFuel).
  { intros i. unfold py_index. destruct Egv; try discriminate.
    - destruct (String.get i s); discriminate.
    - destruct (l !! i); discriminate.
    - destruct (l !! i); discriminate. }
  unfold cheby_dc. intros E.
  apply bind_OutOfFuel in E. destruct E as [E | (e1 & _ & E)]; [exact (Hi _ E)|].
  apply bind_OutOfFuel in E. destruct E as [E | (e0 & _ & E)]; [exact (Hi _ E)|].
  destruct (as_number e1), (as_number e0); discriminate.
Qed.

Lemma list_lt_fuel l h : list_lt l h <> OutOfFuel.
Proof.
  revert h. induction l as [|v l IH]; intros [|a h]; simpl; try discriminate.
  destruct (py_eq_float v a); [apply IH|].
  unfold py_lt_float. destruct (as_number v); discriminate.
Qed.

Theorem cheby2TERM_returns par :
  cheby2TERM Afun B x0 rank tol par callback <> OutOfFuel.
Proof.
  unfold cheby2TERM. intros E.
  apply bind_OutOfFuel in E. destruct E as [E | ([par' Egv] & _ & E)].
  { unfold cheby_params in E.
    match type of E with context [?m !! "eigrange"] => destruct (m !! "eigrange") end;
      discriminate. }
  apply bind_OutOfFuel in E. destruct E as [E | ([[[x r] r0] hist] & _ & E)].
  { unfold cheby_init in E.
    apply bind_OutOfFuel in E. destruct E as [E | (Ib & _ & E)].
    { exact (pydiv_fuel _ _ E). }
    apply bind_OutOfFuel in E. destruct E as [E | (Ax & _ & E)]; [|discriminate].
    exact (Afun_returns _ E). }
  apply bind_OutOfFuel in E. destruct E as [E | (a & _ & E)].
  { exact (hist_index_fuel _ _ E). }
  apply bind_OutOfFuel in E. destruct E as [E | (t & _ & E)].
  { exact (getitem_fuel _ _ E). }
  apply bind_OutOfFuel in E. destruct E as [E | (early & _ & E)].
  { unfold py_lt in E. destruct (as_number t); discriminate. }
  destruct early; [discriminate|].
  unfold cheby_run in E.
  apply bind_OutOfFuel in E. destruct E as [E | ([d c] & _ & E)].
  { exact (cheby_dc_fuel _ E). }
  apply bind_OutOfFuel in E. destruct E as [E | (s & _ & E)].
  { revert E.
    apply (while_enough_fuel _ _ ch_kit (maxiter_fuel (Some par'))).
    - intros s E. unfold cheby_guard in E.
      apply bind_OutOfFuel in E. destruct E as [E | (a' & _ & E)].
      + exact (hist_index_fuel _ _ E).
      + exact (loop_guard_fuel _ _ _ E).
    - intros s. apply cheby_iter_fuel.
    - intros s E. unfold cheby_guard in E.
      apply bind_Ok in E. destruct E as (a' & _ & E).
      apply loop_guard_bound in E. exact E.
    - intros s s'. apply cheby_iter_kit.
    - simpl. lia. }
  apply bind_OutOfFuel in E. destruct E as [E | (msg & _ & E)]; [|discriminate].
  unfold cheby_report in E.
  apply bind_OutOfFuel in E. destruct E as [E | (t' & _ & E)].
  { exact (getitem_fuel _ _ E). }
  apply bind_OutOfFuel in E. destruct E as [E | (b & _ & E)]; [|discriminate].
  unfold py_lt_list in E. destruct t'; try discriminate.
  exact (list_lt_fuel _ _ E).
Qed.

Lemma py_and_fuel dc (b : outcome bool) : b <> OutOfFuel -> py_and dc b <> OutOfFuel.
Proof. unfold py_and. destruct (truthy dc); [auto|discriminate]. Qed.

Lemma divcrit_test_fuel h k a :
  (let* prev := hist_index h k in Ok (Qltb prev a)) <> OutOfFuel.
Proof. unfold hist_index. destruct (h !! k); discriminate. Qed.

Theorem minimal_residual_returns par norm :
  minimal_residual Afun B x0 rank tol par norm <> OutOfFuel.
Proof.
  unfold minimal_residual. intros E.
  apply bind_OutOfFuel in E. destruct E as [E | (s0 & E0 & E)].
  { unfold mr_init in E.
    apply bind_OutOfFuel in E. destruct E as [E | (Ax & _ & E)]; [exact (Afun_returns _ E)|].
    apply bind_OutOfFuel in E. destruct E as [E | (beta & _ & E)]; [exact (Afun_returns _ E)|].
    discriminate. }
  apply bind_OutOfFuel in E. destruct E as [E | (s & _ & E)]; [|discriminate].
  assert (Hk0 : mr_kit s0 = 0%nat).
  { unfold mr_init in E0.
    apply bind_Ok in E0. destruct E0 as (Ax & _ & E0).
    apply bind_Ok in E0. destruct E0 as (beta & _ & E0).
    apply bind_Ok in E0. destruct E0 as (norm_res & _ & [= <-]). reflexivity. }
  revert E. apply (while_enough_fuel _ _ mr_kit (maxiter_fuel par)).
  - intros s. apply loop_guard_fuel.
  - intros s E. unfold mr_iter in E.
    apply bind_OutOfFuel in E. destruct E as [E | (omega & _ & E)].
    { unfold mr_omega in E.
      apply bind_OutOfFuel in E. destruct E as [E | (ao & _ & E)];
        [exact (getitem_fuel _ _ E)|].
      destruct (truthy ao); [exact (pydiv_fuel _ _ E)|].
      apply bind_OutOfFuel in E. destruct E as [E | (om & _ & E)];
        [exact (pydiv_fuel _ _ E)|].
      destruct (Qltb (Qabs om) (1 # 10)); [exact (pydiv_fuel _ _ E)|discriminate]. }
    apply bind_OutOfFuel in E. destruct E as [E | (residuum & _ & E)].
    { destruct (S (mr_kit s) mod 10 =? 0)%nat; [|discriminate].
      apply bind_OutOfFuel in E. destruct E as [E | (Ax & _ & E)]; [|discriminate].
      exact (Afun_returns _ E). }
    apply bind_OutOfFuel in E. destruct E as [E | (dc & _ & E)];
      [exact (getitem_fuel _ _ E)|].
    apply bind_OutOfFuel in E. destruct E as [E | (diverging & _ & E)].
    { revert E. apply py_and_fuel, divcrit_test_fuel. }
    destruct diverging; [discriminate|].
    apply bind_OutOfFuel in E. destruct E as [E | (beta & _ & E)]; [|discriminate].
    exact (Afun_returns _ E).
  - intros s. apply loop_guard_bound.
  - intros s s' E. apply mr_iter_Ok in E.
    destruct E as (omega & residuum & dc & diverging & _ & _ & _ & _ & E).
    destruct diverging; [discriminate|].
    destruct E as (beta & _ & [= ->]). reflexivity.
  - lia.
Qed.

Lemma ri_iter_fuel par nrm FM omega (s : ri_state T) :
  ri_iter Afun B rank tol par nrm FM omega s <> OutOfFuel.
Proof.
  unfold ri_iter. intros E.
  apply bind_OutOfFuel in E. destruct E as [E | (Ax & _ & E)]; [exact (Afun_returns _ E)|].
  apply bind_OutOfFuel in E. destruct E as [E | (dc & _ & E)];
    [exact (getitem_fuel _ _ E)|].
  apply bind_OutOfFuel in E. destruct E as [E | (diverging & _ & E)].
  { revert E. apply py_and_fuel, divcrit_test_fuel. }
  destruct diverging; discriminate.
Qed.

Theorem richardson_returns par norm :
  richardson Afun B x0 rank tol par norm <> OutOfFuel.
Proof.
  unfold richardson. intros E.
  apply bind_OutOfFuel in E. destruct E as [E | (omega & _ & E)].
  { unfold richardson_omega in E.
    apply bind_OutOfFuel in E. destruct E as [E | (alpha & _ & E)];
      [exact (getitem_fuel _ _ E)|].
    destruct alpha; simpl in E; try discriminate. exact (pydiv_fuel _ _ E). }
  unfold richardson_run in E.
  apply bind_OutOfFuel in E. destruct E as [E | (s & _ & E)]; [|discriminate].
  revert E. apply (while_enough_fuel _ _ ri_kit (maxiter_fuel par)).
  - intros s. apply loop_guard_fuel.
  - intros s. apply ri_iter_fuel.
  - intros s. apply loop_guard_bound.
  - intros s s' E. apply ri_iter_Ok in E.
    destruct E as (Ax & dc & diverging & _ & _ & _ & E).
    destruct diverging; [discriminate|]. injection E as ->. reflexivity.
  - simpl. lia.
Qed.

Theorem richardson_debug_returns par norm :
  richardson_debug Afun B x0 rank tol par norm <> OutOfFuel.
Proof.
  unfold richardson_debug. intros E.
  apply bind_OutOfFuel in E. destruct E as [E | (omega & _ & E)].
  { unfold richardson_omega in E.
    apply bind_OutOfFuel in E. destruct E as [E | (alpha & _ & E)];
      [exact (getitem_fuel _ _ E)|].
    destruct alpha; simpl in E; try discriminate. exact (pydiv_fuel _ _ E). }
  unfold richardson_debug_run in E.
  apply bind_OutOfFuel in E. destruct E as [E | (s & _ & E)].
  - revert E. apply (while_enough_fuel _ _ ri_kit (maxiter_fuel par)).
    + intros s. apply loop_guard_fuel.
    + intros s E. unfold rd_iter in E.
      apply bind_OutOfFuel in E. destruct E as [E | (Ax & _ & E)]; [|discriminate].
      exact (Afun_returns _ E).
    + intros s. apply loop_guard_bound.
    + intros s s' E. unfold rd_iter in E.
      apply bind_Ok in E. destruct E as (Ax & _ & [= <-]). reflexivity.
    + simpl. lia.
  - apply bind_OutOfFuel in E. destruct E as [E | (Ax & _ & E)]; [|discriminate].
    exact (Afun_returns _ E).
Qed.

End Termination.

(** ** Runs on the two-point grid *)

Import Grid2.

(** On the grid the mean is linear and the constant field has mean one. *)
Lemma vmean_add (a b : vec) : vmean (vadd a b) == vmean a + vmean b.
Proof.
  destruct a as [a1 a2], b as [b1 b2]. unfold vmean, vadd. cbn.
  rewrite !Qred_correct. field.
Qed.

Lemma vmean_scale (a : vec) (s : Q) : vmean (vscale a s) == vmean a * s.
Proof.
  destruct a as [a1 a2]. unfold vmean, vscale. cbn.
  rewrite !Qred_correct. field.
Qed.

Lemma vmean_neg (a : vec) : vmean (vneg a) == - vmean a.
Proof.
  destruct a as [a1 a2]. unfold vmean, vneg. cbn.
  rewrite !Qred_correct. field.
Qed.

(** With the truncation that loses nothing, the tolerance is zero. *)
#[export] Instance grid2_mean_laws rank tol : MeanLaws vec rank tol 0.
Proof.
  split.
  - apply vmean_add.
  - apply vmean_scale.
  - apply vmean_neg.
  - intros x. reflexivity.
  - intros a. change (Qabs (vmean a - vmean a) <= 0).
    apply Qabs_Qle_condition. lra.
Qed.

(** Rounding down to a multiple of [t] takes off less than [t]. *)
Lemma vround_error (t a : Q) : 0 < t -> - t <= vround (Some t) a - a <= 0.
Proof.
  intros Ht. unfold vround.
  apply Qltb_lt in Ht as Hb. rewrite Hb. rewrite Qred_correct.
  pose proof (Qfloor_le (a / t)) as Hle.
  pose proof (Qlt_floor (a / t)) as Hlt.
  rewrite inject_Z_plus in Hlt.
  change (inject_Z 1) with 1 in Hlt.
  assert (Hnz : ~ t == 0) by lra.
  assert (Ea : a == t * (a / t)) by (field; exact Hnz).
  set (n := inject_Z (Qfloor (a / t))) in *.
  assert (H1 : t * n <= t * (a / t)).
  { apply Qmult_le_l; assumption. }
  assert (H2 : t * (a / t) < t * (n + 1)).
  { apply Qmult_lt_l; assumption. }
  rewrite <- Ea in H1, H2. lra.
Qed.

(** With the lossy truncation to a tolerance [t > 0], the tolerance on
    the mean is [t]. *)
Lemma grid2_lossy_mean_laws rank (t : Q) :
  0 < t -> @MeanLaws vec grid2_lossy_ops rank (Some t) t.
Proof.
  intros Ht. split.
  - apply vmean_add.
  - apply vmean_scale.
  - apply vmean_neg.
  - intros x. reflexivity.
  - intros [a1 a2].
    change (Qabs (Qred ((vround (Some t) a1 + vround (Some t) a2) / 2)
                  - Qred ((a1 + a2) / 2)) <= t).
    rewrite !Qred_correct.
    pose proof (vround_error t a1 Ht) as H1.
    pose proof (vround_error t a2 Ht) as H2.
    set (r1 := vround (Some t) a1) in *. set (r2 := vround (Some t) a2) in *.
    assert (E : (r1 + r2) / 2 - (a1 + a2) / 2 == (1 # 2) * ((r1 - a1) + (r2 - a2)))
      by field.
    rewrite E. apply Qabs_Qle_condition. lra.
Qed.

(** *** cheby2TERM *)

(** Without ['eigrange'] the call fails at once, also with an operator
    that cannot be applied. *)
Lemma cheby2TERM_eigrange_required_witness :
  cheby2TERM broken (1, -1) None None None (Some (base_par (1 # 100) 5)) None
    = Raise NotImplementedError.
Proof.
  apply (proj2 (cheby2TERM_eigrange_required (diag 1 3) (1, -1) None None None None
                  (Some (base_par (1 # 100) 5))
                  ltac:(intros; discriminate) ltac:(intros; discriminate))).
  vm_compute. reflexivity.
Defined.

(** ['eigrange'] is given, as [(-1.0, 1.0)], and the call still ends in
    an exception: [d = 0.0], and the first pass divides by it. *)
Lemma cheby2TERM_raises_with_eigrange :
  ~ eigrange_absent (Some (cheby_par (1 # 100) 5 (-1) 1)) /\
  cheby2TERM (diag 1 3) (1, -1) (Some (0, 0)) None None
    (Some (cheby_par (1 # 100) 5 (-1) 1)) None = Raise ZeroDivisionError.
Proof.
  split.
  - vm_compute. discriminate.
  - vm_compute. reflexivity.
Qed.

(** A right-hand side of norm zero. *)
Lemma cheby2TERM_zero_rhs_witness :
  cheby2TERM (diag 1 3) (0, 0) (Some (1, -1)) None None
    (Some (cheby_par (1 # 100) 5 1 3)) None = Raise ZeroDivisionError.
Proof.
  apply cheby2TERM_zero_rhs.
  - vm_compute. discriminate.
  - vm_compute. reflexivity.
Defined.

(** The identity operator and [x0 = None]: the first residual is zero. *)
Lemma cheby2TERM_early_return_witness :
  cheby2TERM (diag 1 1) (1, -1) None None None (Some (cheby_par (1 # 100) 5 1 3)) None
    = Ok (mkSolution (1, -1) (NormList [1 / 2 * 0]) 0 []).
Proof.
  assert (W := cheby2TERM_early_return (diag 1 1) (1, -1) None None None None
           (Some (cheby_par (1 # 100) 5 1 3)) (cheby_par (1 # 100) 5 1 3)
           (PyTuple [PyFloat 1; PyFloat 3]) (PyFloat (1 # 100)) (1 # 100) (1, -1)).
  apply W.
  - vm_compute. reflexivity.
  - vm_compute. reflexivity.
  - reflexivity.
  - vm_compute. discriminate.
  - vm_compute. reflexivity.
  - vm_compute. reflexivity.
Defined.

(** No pass of the loop was made, and the history is a list, not [0]. *)
Lemma cheby2TERM_zero_passes_list :
  exists sol,
    cheby2TERM (diag 1 1) (1, -1) None None None (Some (cheby_par (1 # 100) 5 1 3)) None
      = Ok sol /\
    sol_kit sol = 0%nat /\ sol_norm_res sol = NormList [0 # 2] /\
    sol_norm_res sol <> NormScalar 0.
Proof.
  eexists. split; [vm_compute; reflexivity|].
  simpl. repeat split. discriminate.
Qed.

(** The loop runs until the residual is below the tolerance; then comes
    the report. *)
Lemma cheby_report_fatal_witness :
  cheby_run (diag 1 3) (1, -1) None None None (cheby_par (3 # 4) 5 1 3)
    (PyTuple [PyFloat 1; PyFloat 3]) (0, 0) (1, -1) 2 [1] = Raise TypeError.
Proof.
  eapply (cheby_report_fatal (diag 1 3) (1, -1) None None None
            (cheby_par (3 # 4) 5 1 3) (PyTuple [PyFloat 1; PyFloat 3])
            (0, 0) (1, -1) 2 [1]).
  - reflexivity.
  - vm_compute. reflexivity.
Defined.

Example cheby2TERM_report_run :
  cheby2TERM (diag 1 3) (1, -1) (Some (0, 0)) None None
    (Some (cheby_par (3 # 4) 5 1 3)) None = Raise TypeError.
Proof. vm_compute. reflexivity. Qed.

(** The third pass of the run that [cheby_two_passes] is taken from. *)
Lemma cheby_coefficients_witness :
  exists s3 w_prev p w,
    cheby_iter (diag 1 3) (1, -1) None None None (1, 1) ((3 + 1) / 2) ((3 - 1) / 2) 2
      cheby_two_passes = Ok (Next s3) /\
    ch_w cheby_two_passes = Some w_prev /\ ch_p s3 = Some p /\ ch_w s3 = Some w /\
    p = - ((3 - 1) / 2 * ((3 - 1) / 2) / 4) * w_prev * w_prev /\
    w = 1 / ((3 + 1) / 2 - (3 - 1) / 2 * ((3 - 1) / 2) * w_prev / 4).
Proof.
  destruct (cheby_iter (diag 1 3) (1, -1) None None None (1, 1)
              ((3 + 1) / 2) ((3 - 1) / 2) 2 cheby_two_passes) as [[s3|s3]| |] eqn:E;
    try (vm_compute in E; discriminate).
  destruct (proj2 (cheby_coefficients (diag 1 3) (1, -1) None None None 1 3
                     (1, 1) 2 cheby_two_passes s3) E)
    as (p & w & _ & Ep & Ew & _ & _ & _ & _ & K3).
  destruct (K3 ltac:(simpl; lia)) as (w_prev & Ewp & Hp & Hw).
  exists s3, w_prev, p, w.
  repeat (split; [assumption || reflexivity|]). assumption.
Defined.

(** The second pass of that run: the code's [p] is [-1/8], the
    specification's [-(c/(2d))^2] is [-1/16]. *)
Lemma cheby_second_pass_p :
  while (cheby_guard (cheby_par (1 # 100) 2 1 3))
    (cheby_iter (diag 1 3) (1, -1) None None None (1, 1) ((3 + 1) / 2) ((3 - 1) / 2) 2)
    2 (mkCheby 0 [1] (0, 0) (1, -1) (0, 0) None None) = Ok cheby_two_passes /\
  ch_kit cheby_two_passes = 2%nat /\
  ch_p cheby_two_passes = Some (-16 # 128) /\
  fst (spec_coeffs ((3 + 1) / 2) ((3 - 1) / 2) 2 (1 / ((3 + 1) / 2))) == - (1 # 16) /\
  ~ -16 # 128 == fst (spec_coeffs ((3 + 1) / 2) ((3 - 1) / 2) 2 (1 / ((3 + 1) / 2))).
Proof.
  split; [vm_compute; reflexivity|].
  split; [reflexivity|]. split; [reflexivity|].
  split; vm_compute; discriminate || reflexivity.
Qed.

(** *** minimal_residual *)

(** The first pass of three calls: with the approximate step size; with
    the exact one, [1/4], kept; and with the exact one, [0] for a [beta]
    orthogonal to [residuum], replaced by the ratio. *)
Lemma minres_step_size_witness :
  (exists omega,
     mr_omega (Some (mr_par (1 # 100) 5 true true)) (mr_norm None)
       (mkMR 0 [2] (0, 0) (1, -1) (1, -3) 2) = Ok omega /\
     omega = mr_norm None ((1, -1) : vec) / mr_norm None ((1, -3) : vec) /\
     omega == 1 # 2 /\
     exists f,
       mr_iter (diag 1 3) (1, -1) None None (Some (mr_par (1 # 100) 5 true true))
         (mr_norm None) (1, 1) (mkMR 0 [2] (0, 0) (1, -1) (1, -3) 2) = Ok f) /\
  (exists omega,
     mr_omega (Some (mr_par (1 # 100) 5 false true)) (mr_norm None)
       (mkMR 0 [2] (0, 0) (1, -1) (1, -3) 2) = Ok omega /\
     omega = tinner ((1, -3) : vec) (1, -1) / mr_norm None ((1, -3) : vec) ^ 2 /\
     omega == 1 # 4 /\
     exists f,
       mr_iter (diag 1 3) (1, -1) None None (Some (mr_par (1 # 100) 5 false true))
         (mr_norm None) (1, 1) (mkMR 0 [2] (0, 0) (1, -1) (1, -3) 2) = Ok f) /\
  (exists omega,
     mr_omega (Some (mr_par (1 # 100) 5 false true)) (mr_norm None)
       (mkMR 0 [2] (0, 0) (1, 1) (1, -1) 2) = Ok omega /\
     Qabs (tinner ((1, -1) : vec) (1, 1) / mr_norm None ((1, -1) : vec) ^ 2) < 1 # 10 /\
     omega = mr_norm None ((1, 1) : vec) / mr_norm None ((1, -1) : vec) /\
     omega == 1 /\
     exists f,
       mr_iter (diag 1 (-1)) (1, 1) None None (Some (mr_par (1 # 100) 5 false true))
         (mr_norm None) (1, 1) (mkMR 0 [2] (0, 0) (1, 1) (1, -1) 2) = Ok f).
Proof.
  split; [|split].
  - destruct (minres_step_size (diag 1 3) (1, -1) (Some (0, 0)) None None
                (Some (mr_par (1 # 100) 5 true true)) None (1, 1)
                (mkMR 0 [2] (0, 0) (1, -1) (1, -3) 2) (PyBool true)
                ltac:(apply mr_reach_init; vm_compute; reflexivity)
                eq_refl ltac:(vm_compute; discriminate))
      as (omega & Eo & Ha & _ & _ & Hex).
    exists omega. split; [exact Eo|].
    split; [exact (Ha eq_refl)|].
    split; [rewrite (Ha eq_refl); vm_compute; reflexivity|].
    apply Hex; [intros x; eexists; reflexivity | eexists; reflexivity].
  - destruct (minres_step_size (diag 1 3) (1, -1) (Some (0, 0)) None None
                (Some (mr_par (1 # 100) 5 false true)) None (1, 1)
                (mkMR 0 [2] (0, 0) (1, -1) (1, -3) 2) (PyBool false)
                ltac:(apply mr_reach_init; vm_compute; reflexivity)
                eq_refl ltac:(vm_compute; discriminate))
      as (omega & Eo & _ & Hf & _ & Hex).
    assert (Ev : omega = tinner ((1, -3) : vec) (1, -1) / mr_norm None ((1, -3) : vec) ^ 2).
    { apply (proj2 (Hf eq_refl)). vm_compute. discriminate. }
    exists omega. split; [exact Eo|].
    split; [exact Ev|].
    split; [rewrite Ev; vm_compute; reflexivity|].
    apply Hex; [intros x; eexists; reflexivity | eexists; reflexivity].
  - destruct (minres_step_size (diag 1 (-1)) (1, 1) (Some (0, 0)) None None
                (Some (mr_par (1 # 100) 5 false true)) None (1, 1)
                (mkMR 0 [2] (0, 0) (1, 1) (1, -1) 2) (PyBool false)
                ltac:(apply mr_reach_init; vm_compute; reflexivity)
                eq_refl ltac:(vm_compute; discriminate))
      as (omega & Eo & _ & Hf & _ & Hex).
    assert (Hlt : Qabs (tinner ((1, -1) : vec) (1, 1) / mr_norm None ((1, -1) : vec) ^ 2)
                  < 1 # 10).
    { vm_compute. reflexivity. }
    assert (Ev : omega = mr_norm None ((1, 1) : vec) / mr_norm None ((1, -1) : vec)).
    { exact (proj1 (Hf eq_refl) Hlt). }
    exists omega. split; [exact Eo|].
    split; [exact Hlt|]. split; [exact Ev|].
    split; [rewrite Ev; vm_compute; reflexivity|].
    apply Hex; [intros x; eexists; reflexivity | eexists; reflexivity].
Defined.

(** The operator [diag 1 (-1)], [B = (1, 1)], [x0 = (0, 0)], the
    approximate step size and [divcrit] set: the second pass finds a
    residual norm of [4] after [2] and breaks. *)
Lemma minres_divergence_stop_witness :
  exists h,
    NormList [2; 2] = NormList h /\ nonincreasing h /\
    (2%nat = length h ->
     exists (s : mr_state vec) omega,
       mr_reachable (diag 1 (-1)) (1, 1) (Some (0, 0)) None None
         (Some (mr_par (1 # 100) 5 true true)) None (1, 1) s /\
       mr_hist s = h /\ 2%nat = S (mr_kit s) /\
       mr_omega (Some (mr_par (1 # 100) 5 true true)) (mr_norm None) s = Ok omega /\
       ((-1, 1) : vec) =
         mean_correct None None (1, 1) (tadd (mr_x s) (tscale (mr_residuum s) omega))).
Proof.
  apply (proj2 (minres_divergence_stop (diag 1 (-1)) (1, 1) (Some (0, 0)) None None
                  (Some (mr_par (1 # 100) 5 true true)) None (1, 1) (PyBool true)
                  eq_refl eq_refl)
           (mkSolution (-1, 1) (NormList [2; 2]) 2 [])).
  - reflexivity.
  - vm_compute. reflexivity.
Defined.

(** In that run the iterate handed back is [(-1, 1)], the one the
    breaking pass has made; the iterate that the last recorded pass left,
    which the same call stopped after one pass hands back, is [(0, 0)]. *)
Lemma minres_returns_diverged_iterate :
  minimal_residual (diag 1 (-1)) (1, 1) (Some (0, 0)) None None
    (Some (mr_par (1 # 100) 5 true true)) None
    = Ok (mkSolution (-1, 1) (NormList [2; 2]) 2 []) /\
  minimal_residual (diag 1 (-1)) (1, 1) (Some (0, 0)) None None
    (Some (mr_par (1 # 100) 1 true true)) None
    = Ok (mkSolution (0, 0) (NormList [2; 2]) 1 []) /\
  ((-1, 1) : vec) <> (0, 0).
Proof.
  split; [vm_compute; reflexivity|].
  split; [vm_compute; reflexivity|].
  discriminate.
Qed.

(** *** richardson and richardson_debug *)

(** The operator [diag 1 3], [B = (1, -1)], [x0 = (0, 0)] and
    [alpha = 0.5]: the first pass is recorded, the second finds a residual
    norm of [6] after [2] and breaks. *)
Lemma richardson_divergence_stop_witness :
  exists h,
    NormList [2; 2] = NormList h /\ nonincreasing h /\
    exists s : ri_state vec,
      ri_reachable (diag 1 3) (1, -1) (Some (0, 0)) None None
        (Some (ri_par (1 # 100) 6 (PyFloat (1 # 2)) true)) None (1, 1) (1 / (1 # 2)) s /\
      ri_hist s = h /\ ri_x s = (2, -2).
Proof.
  apply (proj2 (richardson_divergence_stop (diag 1 3) (1, -1) (Some (0, 0)) None None
                  (Some (ri_par (1 # 100) 6 (PyFloat (1 # 2)) true)) None (1, 1)
                  (1 / (1 # 2)) (PyBool true) eq_refl eq_refl)
           (mkSolution (2, -2) (NormList [2; 2]) 2 [])).
  - reflexivity.
  - vm_compute. reflexivity.
  - vm_compute. reflexivity.
Defined.

(** [alpha = 2], an [int]. *)
Lemma richardson_alpha_check_witness :
  richardson (diag 1 3) (1, -1) (Some (0, 0)) None None
    (Some (ri_par (1 # 100) 6 (PyInt 2) true)) None = Raise ValueError /\
  richardson_debug (diag 1 3) (1, -1) (Some (0, 0)) None None
    (Some (ri_par (1 # 100) 6 (PyInt 2) true)) None = Raise ValueError.
Proof.
  apply (proj1 (proj2 (richardson_alpha_check (diag 1 3) (1, -1) (Some (0, 0)) None None
                         (Some (ri_par (1 # 100) 6 (PyInt 2) true)) None (PyInt 2)
                         eq_refl ltac:(intros; discriminate)))).
  reflexivity.
Defined.

(** [alpha = 0.0] is a float, and both solvers end in an exception before
    the first pass. *)
Lemma richardson_zero_alpha_raises :
  is_float (PyFloat 0) = true /\
  richardson (diag 1 3) (1, -1) (Some (0, 0)) None None
    (Some (ri_par (1 # 100) 6 (PyFloat 0) true)) None = Raise ZeroDivisionError /\
  richardson_debug (diag 1 3) (1, -1) (Some (0, 0)) None None
    (Some (ri_par (1 # 100) 6 (PyFloat 0) true)) None = Raise ZeroDivisionError.
Proof.
  split; [reflexivity|]. split; vm_compute; reflexivity.
Qed.

(** *** The mean correction *)

(** With the lossy truncation to a tolerance of [1/10]: [richardson] on
    [B = (1, 0)] with [alpha = 4.0] updates [(0, 0)] to [(1/4, 0)], of
    mean [1/8]; the correction and the truncation leave [(1/10, -1/5)], of
    mean [-1/20]. And [minimal_residual] updates [(0, 0)] to [(1, 0)] and
    leaves [(1/2, -1/2)]. *)
Lemma mean_correction_applied_witness :
  @richardson vec grid2_lossy_ops (diag 1 3) (1, 0) (Some (0, 0)) None (Some (1 # 10))
    (Some (ri_par (1 # 100) 1 (PyFloat 4) true)) None
    = Ok (mkSolution (1 # 10, -1 # 5) (NormList [1; 1]) 1 []) /\
  Qabs (vmean (1 # 10, -1 # 5)) <= 1 # 10 /\
  ~ vmean (1 # 10, -1 # 5) == 0 /\
  ~ Qabs (vmean (vadd (0, 0) (vscale (1, 0) (1 / 4)))) <= 1 # 10 /\
  @minimal_residual vec grid2_lossy_ops (diag 1 3) (1, 0) (Some (0, 0)) None (Some (1 # 10))
    (Some (mr_par (1 # 100) 1 true true)) None
    = Ok (mkSolution (1 # 2, -1 # 2) (NormList [1; 0]) 1 []) /\
  Qabs (vmean (1 # 2, -1 # 2)) <= 1 # 10 /\
  ~ Qabs (vmean (vadd (0, 0) (vscale (1, 0) 1))) <= 1 # 10 /\
  exists s' : cheby_state vec,
    @cheby_iter vec grid2_lossy_ops (diag 1 3) (1, 0) None (Some (1 # 10)) None (1, 1)
      2 1 1 (mkCheby 0 [1] (0, 0) (1, 0) (0, 0) None None) = Ok (Next s') /\
    ch_x s' = (1 # 5, -3 # 10) /\
    Qabs (vmean (ch_x s')) <= 1 # 10.
Proof.
  assert (Er : @richardson vec grid2_lossy_ops (diag 1 3) (1, 0) (Some (0, 0)) None
                 (Some (1 # 10)) (Some (ri_par (1 # 100) 1 (PyFloat 4) true)) None
               = Ok (mkSolution (1 # 10, -1 # 5) (NormList [1; 1]) 1 [])).
  { vm_compute. reflexivity. }
  assert (Em : @minimal_residual vec grid2_lossy_ops (diag 1 3) (1, 0) (Some (0, 0)) None
                 (Some (1 # 10)) (Some (mr_par (1 # 100) 1 true true)) None
               = Ok (mkSolution (1 # 2, -1 # 2) (NormList [1; 0]) 1 [])).
  { vm_compute. reflexivity. }
  split; [exact Er|].
  split.
  { exact (proj2 (proj2 (proj2 (proj2
             (@mean_correction_applied vec grid2_lossy_ops (diag 1 3) (1, 0) (Some (0, 0))
                None (Some (1 # 10)) (1 # 10)
                (grid2_lossy_mean_laws None (1 # 10) eq_refl)
                (Some (ri_par (1 # 100) 1 (PyFloat 4) true)) None None))))
             _ [1; 1] Er eq_refl (le_n 2)). }
  split; [vm_compute; discriminate|].
  split; [apply Qlt_not_le; vm_compute; reflexivity|].
  split; [exact Em|].
  split.
  { exact (proj1 (proj2 (proj2 (proj2
             (@mean_correction_applied vec grid2_lossy_ops (diag 1 3) (1, 0) (Some (0, 0))
                None (Some (1 # 10)) (1 # 10)
                (grid2_lossy_mean_laws None (1 # 10) eq_refl)
                (Some (mr_par (1 # 100) 1 true true)) None None))))
             _ Em (le_n 1)). }
  split; [apply Qlt_not_le; vm_compute; reflexivity|].
  destruct (@cheby_iter vec grid2_lossy_ops (diag 1 3) (1, 0) None (Some (1 # 10)) None
              (1, 1) 2 1 1 (mkCheby 0 [1] (0, 0) (1, 0) (0, 0) None None))
    as [[s'|s']| |] eqn:E; try (vm_compute in E; discriminate).
  exists s'. split; [reflexivity|].
  split; [vm_compute in E; injection E as <-; reflexivity|].
  exact (proj1 (@mean_correction_applied vec grid2_lossy_ops (diag 1 3) (1, 0) (Some (0, 0))
                  None (Some (1 # 10)) (1 # 10)
                  (grid2_lossy_mean_laws None (1 # 10) eq_refl)
                  None None None)
           (0, 0) 2 1 1 _ s' E).
Defined.

(** [richardson_debug] with the identity operator, [B = (1, 0)] and
    [alpha = 1.0]: one pass is made and recorded, and the iterate handed
    back has mean [1/2]. *)
Lemma richardson_debug_mean_not_zero :
  richardson_debug (diag 1 1) (1, 0) None None None
    (Some (ri_par (1 # 100) 20 (PyFloat 1) true)) None
    = Ok (mkSolution (1, 0) (NormList [0; 0]) 1 []) /\
  ~ tmean ((1, 0) : vec) == 0.
Proof.
  split; [vm_compute; reflexivity|].
  vm_compute. discriminate.
Qed.

(** * Further properties of the solvers *)

(** ** More on loops and on the guard *)

Section WhileMore.

Context {S : Type}.
Variable guard : S -> outcome bool.
Variable body : S -> outcome (flow S).

(** What the loop cannot raise while an invariant holds. *)
Lemma while_raises_inv (I : S -> Prop) (e : exn) :
  (forall s, I s -> guard s <> Raise e) ->
  (forall s, I s -> guard s = Ok true -> body s <> Raise e) ->
  (forall s s', I s -> guard s = Ok true -> body s = Ok (Next s') -> I s') ->
  forall fuel s, I s -> while guard body fuel s <> Raise e.
Proof.
  intros Hg Hb Hnext fuel.
  induction fuel as [|fuel IH]; intros s HI E; simpl in E.
  - apply bind_Raise in E. destruct E as [E | (g & _ & E)].
    + exact (Hg _ HI E).
    + destruct g; discriminate.
  - apply bind_Raise in E. destruct E as [E | (g & Eg & E)].
    + exact (Hg _ HI E).
    + destruct g; [|discriminate].
      apply bind_Raise in E. destruct E as [E | (f & Ef & E)].
      * exact (Hb _ HI Eg E).
      * destruct f as [s'|s']; [|discriminate].
        exact (IH s' (Hnext _ _ HI Eg Ef) E).
Qed.

(** A loop whose guard raises at the first test raises the same. *)
Lemma while_guard_raises (e : exn) fuel s :
  guard s = Raise e -> while guard body fuel s = Raise e.
Proof. intros E. destruct fuel; simpl; rewrite E; reflexivity. Qed.

(** A loop whose first pass raises, raises the same. *)
Lemma while_body_raises (e : exn) fuel s :
  guard s = Ok true -> body s = Raise e ->
  while guard body (Datatypes.S fuel) s = Raise e.
Proof. intros Eg Eb. simpl. rewrite Eg. simpl. rewrite Eb. reflexivity. Qed.

End WhileMore.

(** Loops with the same guard and the same body are the same loop. *)
Lemma while_ext {S : Type} (guard guard' : S -> outcome bool)
    (body body' : S -> outcome (flow S)) :
  (forall s, guard s = guard' s) -> (forall s, body s = body' s) ->
  forall fuel s, while guard body fuel s = while guard' body' fuel s.
Proof.
  intros Hg Hb fuel.
  induction fuel as [|fuel IH]; intros s; simpl; rewrite Hg.
  - reflexivity.
  - destruct (guard' s) as [[|]| |]; simpl; try reflexivity.
    rewrite Hb. destruct (body' s) as [[s'|s']| |]; simpl; auto.
Qed.

(** The guard lets a pass begin only below [par['maxiter']]. *)
Lemma loop_guard_true par a kit :
  loop_guard par a kit = Ok true ->
  exists m q, getitem par "maxiter" = Ok m /\ as_number m = Some q /\
    inject_Z (Z.of_nat kit) < q.
Proof.
  unfold loop_guard. intros E.
  apply bind_Ok in E. destruct E as (t & _ & E).
  apply bind_Ok in E. destruct E as (g & _ & E).
  destruct g; [|discriminate].
  apply bind_Ok in E. destruct E as (m & Em & E).
  apply py_lt_Ok in E. destruct E as (q & Eq & Hq).
  exists m, q. repeat split; auto.
  apply Qltb_lt. auto.
Qed.


(** The guard reads [par['tol']] first. *)
Lemma loop_guard_no_tol par a kit (e : exn) :
  getitem par "tol" = Raise e -> loop_guard par a kit = Raise e.
Proof. intros E. unfold loop_guard. rewrite E. reflexivity. Qed.

(** ** richardson: the shape of a result *)

Section RichardsonMore.

Context {T : Type} `{TensorOps T}.
Variable Afun : T -> outcome T.
Variable B : T.
Variable x0 : option T.
Variable rank : option nat.
Variable tol : option Q.
Variable par : option (gmap string pyval).
Variable norm : option (T -> Q).

(** The constant field that a call with step size [omega] builds. *)
Let FM (omega : Q) : T := const_field (initial_guess x0 (tscale B omega)).

(** A result of [richardson] comes from a state in which the guard was
    tested: either the guard ended the loop there, or the pass begun
    there ended in [break]. *)
Lemma richardson_Ok_inv sol :
  richardson Afun B x0 rank tol par norm = Ok sol ->
  exists omega (s : ri_state T),
    richardson_omega par = Ok omega /\
    ri_reachable Afun B x0 rank tol par norm (FM omega) omega s /\
    ((ri_guard par s = Ok false /\
      sol = mkSolution (ri_x s) (NormList (ri_hist s)) (ri_kit s) []) \/
     (ri_guard par s = Ok true /\
      exists s',
        ri_iter Afun B rank tol par (ri_norm norm) (FM omega) omega s = Ok (Break s') /\
        sol = mkSolution (ri_x s') (NormList (ri_hist s')) (ri_kit s') [])).
Proof.
  unfold richardson. intros E.
  apply bind_Ok in E. destruct E as (omega & Eo & E).
  exists omega. unfold richardson_run in E.
  apply bind_Ok in E. destruct E as (r & Ew & [= <-]).
  change (ri_x (ri_init B x0 (ri_norm norm) omega))
    with (initial_guess x0 (tscale B omega)) in Ew.
  fold (FM omega) in Ew.
  eapply (while_invariant _ _
    (fun s => ri_reachable Afun B x0 rank tol par norm (FM omega) omega s)
    (fun r => exists s : ri_state T,
       richardson_omega par = Ok omega /\
       ri_reachable Afun B x0 rank tol par norm (FM omega) omega s /\
       ((ri_guard par s = Ok false /\
         mkSolution (ri_x r) (NormList (ri_hist r)) (ri_kit r) []
           = mkSolution (ri_x s) (NormList (ri_hist s)) (ri_kit s) []) \/
        (ri_guard par s = Ok true /\
         exists s',
           ri_iter Afun B rank tol par (ri_norm norm) (FM omega) omega s
             = Ok (Break s') /\
           mkSolution (ri_x r) (NormList (ri_hist r)) (ri_kit r) []
             = mkSolution (ri_x s') (NormList (ri_hist s')) (ri_kit s') []))));
    [ | | | | exact Ew].
  - intros s s' Hreach Hg E. eapply ri_reach_next; eauto.
  - intros s s' Hreach Hg E. exists s. repeat split; auto.
    right. split; [exact Hg|]. exists s'. auto.
  - intros s Hreach Hg. exists s. repeat split; auto.
  - apply ri_reach_init.
Qed.

(** At every test of the guard the history begins with the norm of [B]. *)
Lemma ri_reachable_first FM' omega (s : ri_state T) :
  ri_reachable Afun B x0 rank tol par norm FM' omega s ->
  ri_hist s !! 0%nat = Some (ri_norm norm B).
Proof.
  induction 1 as [| s s' _ IH _ E].
  - reflexivity.
  - apply ri_iter_Ok in E. destruct E as (Ax & dc & diverging & _ & _ & _ & E).
    destruct diverging; [discriminate|].
    injection E as ->. simpl.
    rewrite lookup_app_l; [exact IH|].
    apply lookup_lt_Some in IH. exact IH.
Qed.

(** After the first pass, the last entry of the history is the norm of
    the residual of the iterate before the last update. *)
Lemma ri_reachable_last FM' omega (s : ri_state T) :
  ri_reachable Afun B x0 rank tol par norm FM' omega s ->
  (1 <= ri_kit s)%nat ->
  exists x' Ax',
    Afun x' = Ok Ax' /\
    ri_norm_res s = ri_norm norm (tsub B Ax') /\
    last (ri_hist s) = Some (ri_norm_res s) /\
    ri_x s = mean_correct rank tol FM' (tadd x' (tscale (tsub B Ax') omega)).
Proof.
  induction 1 as [| s s' _ _ _ E]; simpl; [lia|]. intros _.
  apply ri_iter_Ok in E. destruct E as (Ax & dc & diverging & EA & _ & _ & E).
  destruct diverging; [discriminate|].
  injection E as ->. simpl.
  exists (ri_x s), Ax. repeat split; auto.
  apply last_snoc.
Qed.

(** A pass is begun only below [par['maxiter']]. *)
Lemma ri_reachable_budget FM' omega (s : ri_state T) k :
  ri_reachable Afun B x0 rank tol par norm FM' omega s ->
  ri_kit s = S k ->
  exists m q, getitem par "maxiter" = Ok m /\ as_number m = Some q /\
    inject_Z (Z.of_nat k) < q.
Proof.
  induction 1 as [| s s' _ _ Hg E]; simpl; [discriminate|]. intros Ek.
  apply ri_iter_Ok in E. destruct E as (Ax & dc & diverging & _ & _ & _ & E).
  destruct diverging; [discriminate|].
  injection E as ->. simpl in Ek. injection Ek as <-.
  apply loop_guard_true in Hg. exact Hg.
Qed.

(** What a pass that ends in [break] has seen and left. *)
Lemma ri_iter_Break FM' omega (s s' : ri_state T) :
  ri_iter Afun B rank tol par (ri_norm norm) FM' omega s = Ok (Break s') ->
  exists Ax dc,
    Afun (ri_x s) = Ok Ax /\
    getitem par "divcrit" = Ok dc /\ truthy dc = true /\
    s' = mkRI (S (ri_kit s)) (ri_hist s) (ri_x s) (ri_norm norm (tsub B Ax)).
Proof.
  intros E. apply ri_iter_Ok in E.
  destruct E as (Ax & dc & diverging & EA & Ed & Ev & E).
  destruct diverging; [|discriminate].
  injection E as ->.
  apply py_and_Ok in Ev. destruct Ev as [[Ht _] | [_ Hf]]; [|discriminate].
  exists Ax, dc. auto.
Qed.

(** X1. The history that [richardson] hands back begins with the norm of
    [B], whatever the initial guess, and holds one entry more than the
    counter [kit]; or exactly [kit] entries, which happens only when
    [par['divcrit']] is set and the last pass ended in [break]. *)
Theorem richardson_history_shape sol :
  richardson Afun B x0 rank tol par norm = Ok sol ->
  exists h,
    sol_norm_res sol = NormList h /\
    h !! 0%nat = Some (ri_norm norm B) /\
    (length h = S (sol_kit sol) \/
     (length h = sol_kit sol /\
      exists dc, getitem par "divcrit" = Ok dc /\ truthy dc = true)).
Proof.
  intros E. apply richardson_Ok_inv in E.
  destruct E as (omega & s & _ & Hreach & [(_ & ->) | (_ & s' & Eb & ->)]); simpl.
  - exists (ri_hist s). split; [reflexivity|].
    split; [eapply ri_reachable_first; eauto|].
    left. eapply ri_reachable_length; eauto.
  - apply ri_iter_Break in Eb. destruct Eb as (Ax & dc & _ & Ed & Ht & ->). simpl.
    exists (ri_hist s). split; [reflexivity|].
    split; [eapply ri_reachable_first; eauto|].
    right. split; [eapply ri_reachable_length; eauto|]. eauto.
Qed.

(** X2. When [richardson] comes back without a [break] (the history has
    [kit + 1] entries) after at least one pass, the last entry of the
    history is the residual norm of the iterate before the last update,
    not of the iterate handed back: that one is the mean-corrected
    update of it. *)
Theorem richardson_history_lags sol h :
  richardson Afun B x0 rank tol par norm = Ok sol ->
  sol_norm_res sol = NormList h ->
  length h = S (sol_kit sol) ->
  (1 <= sol_kit sol)%nat ->
  exists omega x' Ax',
    richardson_omega par = Ok omega /\
    Afun x' = Ok Ax' /\
    last h = Some (ri_norm norm (tsub B Ax')) /\
    sol_x sol = mean_correct rank tol (FM omega) (tadd x' (tscale (tsub B Ax') omega)).
Proof.
  intros E Eh Hlen Hk. apply richardson_Ok_inv in E.
  destruct E as (omega & s & Eo & Hreach & [(_ & ->) | (_ & s' & Eb & ->)]);
    simpl in *; injection Eh as <-.
  - destruct (ri_reachable_last _ _ _ Hreach Hk) as (x' & Ax' & EA & En & Hl & Ex).
    exists omega, x', Ax'. repeat split; auto. congruence.
  - apply ri_iter_Break in Eb. destruct Eb as (Ax & dc & _ & _ & _ & ->).
    simpl in *. apply ri_reachable_length in Hreach. lia.
Qed.


End RichardsonMore.

(** ** minimal_residual: the shape of a result *)

Section MinresMore.

Context {T : Type} `{TensorOps T}.
Variable Afun : T -> outcome T.
Variable B : T.
Variable x0 : option T.
Variable rank : option nat.
Variable tol : option Q.
Variable par : option (gmap string pyval).
Variable norm : option (T -> Q).

Let FM : T := const_field (initial_guess x0 B).

(** A result of [minimal_residual] comes from a state in which the guard
    was tested: either the guard ended the loop there, or the pass begun
    there ended in [break]. *)
Lemma minimal_residual_Ok_inv sol :
  minimal_residual Afun B x0 rank tol par norm = Ok sol ->
  exists s : mr_state T,
    mr_reachable Afun B x0 rank tol par norm FM s /\
    ((mr_guard par s = Ok false /\
      sol = mkSolution (mr_x s) (NormList (mr_hist s)) (mr_kit s) []) \/
     (mr_guard par s = Ok true /\
      exists s',
        mr_iter Afun B rank tol par (mr_norm norm) FM s = Ok (Break s') /\
        sol = mkSolution (mr_x s') (NormList (mr_hist s')) (mr_kit s') [])).
Proof.
  unfold minimal_residual. intros E.
  apply bind_Ok in E. destruct E as (s0 & E0 & E).
  apply bind_Ok in E. destruct E as (r & Ew & [= <-]).
  rewrite (mr_init_x _ _ _ _ _ E0) in Ew. fold FM in Ew.
  eapply (while_invariant _ _
    (fun s => mr_reachable Afun B x0 rank tol par norm FM s)
    (fun r => exists s : mr_state T,
       mr_reachable Afun B x0 rank tol par norm FM s /\
       ((mr_guard par s = Ok false /\
         mkSolution (mr_x r) (NormList (mr_hist r)) (mr_kit r) []
           = mkSolution (mr_x s) (NormList (mr_hist s)) (mr_kit s) []) \/
        (mr_guard par s = Ok true /\
         exists s',
           mr_iter Afun B rank tol par (mr_norm norm) FM s = Ok (Break s') /\
           mkSolution (mr_x r) (NormList (mr_hist r)) (mr_kit r) []
             = mkSolution (mr_x s') (NormList (mr_hist s')) (mr_kit s') []))));
    [ | | | | exact Ew].
  - intros s s' Hreach Hg E. eapply mr_reach_next; eauto.
  - intros s s' Hreach Hg E. exists s. split; [exact Hreach|].
    right. split; [exact Hg|]. exists s'. auto.
  - intros s Hreach Hg. exists s. auto.
  - apply mr_reach_init. exact E0.
Qed.

(** What a pass that does not end in [break] has left. *)
Lemma mr_iter_Next FM' (s s' : mr_state T) :
  mr_iter Afun B rank tol par (mr_norm norm) FM' s = Ok (Next s') ->
  exists omega,
    mr_omega par (mr_norm norm) s = Ok omega /\
    mr_kit s' = S (mr_kit s) /\
    mr_hist s' = mr_hist s ++ [mr_norm_res s'] /\
    mr_norm_res s' = mr_norm norm (mr_residuum s') /\
    mr_x s' = mean_correct rank tol FM' (tadd (mr_x s) (tscale (mr_residuum s) omega)) /\
    ((S (mr_kit s) mod 10 =? 0)%nat = true ->
     exists Ax, Afun (mr_x s') = Ok Ax /\ mr_residuum s' = tsub B Ax).
Proof.
  intros E. apply mr_iter_Ok in E.
  destruct E as (omega & residuum & dc & diverging & Eo & Er & _ & _ & E).
  destruct diverging; [discriminate|].
  destruct E as (beta & _ & [= ->]).
  exists omega. repeat (split; [assumption || reflexivity|]).
  intros Hk. cbv zeta in Er. rewrite Hk in Er. exact Er.
Qed.

(** What a pass that ends in [break] has seen. *)
Lemma mr_iter_Break FM' (s s' : mr_state T) :
  mr_iter Afun B rank tol par (mr_norm norm) FM' s = Ok (Break s') ->
  mr_kit s' = S (mr_kit s) /\ mr_hist s' = mr_hist s /\
  exists dc, getitem par "divcrit" = Ok dc /\ truthy dc = true.
Proof.
  intros E. apply mr_iter_Ok in E.
  destruct E as (omega & residuum & dc & diverging & _ & _ & Ed & Ev & E).
  destruct diverging; [|destruct E as (beta & _ & E); discriminate].
  injection E as ->. simpl.
  apply py_and_Ok in Ev. destruct Ev as [[Ht _] | [_ Hf]]; [|discriminate].
  eauto.
Qed.

(** At every test of the guard the history begins with the norm of the
    first residual and ends with [norm_res]. *)
Lemma mr_reachable_ends FM' (s : mr_state T) :
  mr_reachable Afun B x0 rank tol par norm FM' s ->
  last (mr_hist s) = Some (mr_norm_res s) /\
  exists Ax, Afun (initial_guess x0 B) = Ok Ax /\
    mr_hist s !! 0%nat = Some (mr_norm norm (tsub B Ax)).
Proof.
  induction 1 as [s0 E | s s' _ IH _ E].
  - unfold mr_init in E.
    apply bind_Ok in E. destruct E as (Ax & EA & E).
    apply bind_Ok in E. destruct E as (beta & Eb & E).
    apply bind_Ok in E. destruct E as (norm_res & En & [= <-]).
    simpl in *. injection En as <-. eauto.
  - destruct IH as (_ & Ax & EA & E0).
    apply mr_iter_Next in E. destruct E as (omega & _ & _ & Eh & _).
    rewrite Eh. split; [apply last_snoc|].
    exists Ax. split; [exact EA|].
    rewrite lookup_app_l; [exact E0|].
    apply lookup_lt_Some in E0. exact E0.
Qed.

(** After every tenth pass [residuum] is the residual of the iterate. *)
Lemma mr_reachable_exact FM' (s : mr_state T) :
  mr_reachable Afun B x0 rank tol par norm FM' s ->
  (1 <= mr_kit s)%nat -> (mr_kit s mod 10)%nat = 0%nat ->
  exists Ax, Afun (mr_x s) = Ok Ax /\ mr_residuum s = tsub B Ax.
Proof.
  induction 1 as [s0 E | s s' _ _ _ E].
  - unfold mr_init in E.
    apply bind_Ok in E. destruct E as (Ax & EA & E).
    apply bind_Ok in E. destruct E as (beta & Eb & E).
    apply bind_Ok in E. destruct E as (norm_res & En & [= <-]).
    simpl. lia.
  - intros _ Hm.
    apply mr_iter_Next in E. destruct E as (omega & _ & Ek & _ & _ & _ & Ex).
    apply Ex. rewrite <- Ek. apply Nat.eqb_eq. exact Hm.
Qed.

Lemma mr_reachable_budget FM' (s : mr_state T) k :
  mr_reachable Afun B x0 rank tol par norm FM' s ->
  mr_kit s = S k ->
  exists m q, getitem par "maxiter" = Ok m /\ as_number m = Some q /\
    inject_Z (Z.of_nat k) < q.
Proof.
  induction 1 as [s0 E | s s' _ _ Hg E].
  - unfold mr_init in E.
    apply bind_Ok in E. destruct E as (Ax & EA & E).
    apply bind_Ok in E. destruct E as (beta & Eb & E).
    apply bind_Ok in E. destruct E as (norm_res & En & [= <-]).
    discriminate.
  - intros Ek.
    apply mr_iter_Next in E. destruct E as (omega & _ & Ek' & _).
    rewrite Ek' in Ek. injection Ek as <-.
    apply loop_guard_true in Hg. exact Hg.
Qed.

(** X4. The history that [minimal_residual] hands back begins with the
    norm of the first residual [B - A(x)] and holds one entry more than
    the counter [kit]; or exactly [kit] entries, which happens only when
    [par['divcrit']] is set and the last pass ended in [break]. *)
Theorem minres_history_shape sol :
  minimal_residual Afun B x0 rank tol par norm = Ok sol ->
  exists h Ax,
    sol_norm_res sol = NormList h /\
    Afun (initial_guess x0 B) = Ok Ax /\
    h !! 0%nat = Some (mr_norm norm (tsub B Ax)) /\
    (length h = S (sol_kit sol) \/
     (length h = sol_kit sol /\
      exists dc, getitem par "divcrit" = Ok dc /\ truthy dc = true)).
Proof.
  intros E. apply minimal_residual_Ok_inv in E.
  destruct E as (s & Hreach & [(_ & ->) | (_ & s' & Eb & ->)]); simpl;
    destruct (mr_reachable_ends _ _ Hreach) as (_ & Ax & EA & E0);
    pose proof (mr_reachable_length _ _ _ _ _ _ _ _ _ Hreach) as Hlen.
  - exists (mr_hist s), Ax. auto.
  - apply mr_iter_Break in Eb. destruct Eb as (Ek & Eh & Hdc).
    exists (mr_hist s), Ax. rewrite Eh, Ek. repeat split; auto.
Qed.


(** X6. When [minimal_residual] comes back without a [break] with a
    counter that is a positive multiple of ten, the last recorded norm is
    the norm of the residual [B - A(x)] of the iterate handed back,
    computed afresh and not carried along. *)
Theorem minres_exact_every_tenth sol h :
  minimal_residual Afun B x0 rank tol par norm = Ok sol ->
  sol_norm_res sol = NormList h ->
  length h = S (sol_kit sol) ->
  (1 <= sol_kit sol)%nat -> (sol_kit sol mod 10)%nat = 0%nat ->
  exists Ax,
    Afun (sol_x sol) = Ok Ax /\
    last h = Some (mr_norm norm (tsub B Ax)).
Proof.
  intros E Eh Hlen Hk Hm. apply minimal_residual_Ok_inv in E.
  destruct E as (s & Hreach & [(Hg & ->) | (_ & s' & Eb & ->)]);
    simpl in *; injection Eh as <-.
  - destruct (mr_reachable_exact _ _ Hreach Hk Hm) as (Ax & EA & Er).
    destruct (mr_reachable_ends _ _ Hreach) as (Hl & _).
    destruct (mr_reachable_inv _ _ _ _ _ _ _ _ _ Hreach) as (En & _).
    exists Ax. split; [exact EA|]. rewrite Hl, En, Er. reflexivity.
  - apply mr_iter_Break in Eb. destruct Eb as (Ek & Eh & _).
    apply mr_reachable_length in Hreach. rewrite Eh, Ek in Hlen. lia.
Qed.

End MinresMore.

(** ** richardson_debug: the shape of a result *)

Section RichardsonDebugMore.

Context {T : Type} `{TensorOps T}.
Variable Afun : T -> outcome T.
Variable B : T.
Variable x0 : option T.
Variable rank : option nat.
Variable tol : option Q.
Variable par : option (gmap string pyval).
Variable norm : option (T -> Q).

(** What a pass of the loop body that does not raise has done. *)
Lemma rd_iter_Ok omega (s : ri_state T) f :
  rd_iter Afun B rank tol (ri_norm norm) omega s = Ok f ->
  exists Ax,
    Afun (ri_x s) = Ok Ax /\
    f = Next (mkRI (S (ri_kit s)) (ri_hist s ++ [ri_norm norm (tsub B Ax)])
                (truncate rank tol (tadd (ri_x s) (tscale (tsub B Ax) omega)))
                (ri_norm norm (tsub B Ax))).
Proof.
  unfold rd_iter. intros E.
  apply bind_Ok in E. destruct E as (Ax & EA & [= <-]). eauto.
Qed.

(** The loop of [richardson_debug] records one norm per pass, and begins
    a pass only below [par['maxiter']]. *)
Lemma rd_loop_shape omega fuel x (r : ri_state T) :
  while (ri_guard par) (rd_iter Afun B rank tol (ri_norm norm) omega) fuel
    (mkRI 0 [] x 1000000000000000) = Ok r ->
  length (ri_hist r) = ri_kit r /\
  forall k, ri_kit r = S k ->
    exists m q, getitem par "maxiter" = Ok m /\ as_number m = Some q /\
      inject_Z (Z.of_nat k) < q.
Proof.
  intros Ew.
  eapply (while_invariant _ _
    (fun s : ri_state T => length (ri_hist s) = ri_kit s /\
       forall k, ri_kit s = S k ->
         exists m q, getitem par "maxiter" = Ok m /\ as_number m = Some q /\
           inject_Z (Z.of_nat k) < q)
    (fun s : ri_state T => length (ri_hist s) = ri_kit s /\
       forall k, ri_kit s = S k ->
         exists m q, getitem par "maxiter" = Ok m /\ as_number m = Some q /\
           inject_Z (Z.of_nat k) < q));
    [ | | | | exact Ew].
  - intros s s' [Hlen _] Hg E.
    apply rd_iter_Ok in E. destruct E as (Ax & _ & [= ->]). simpl. split.
    + rewrite length_app, Hlen. simpl. lia.
    + intros k [= <-]. apply loop_guard_true in Hg. exact Hg.
  - intros s s' _ _ E.
    apply rd_iter_Ok in E. destruct E as (Ax & _ & E). discriminate.
  - auto.
  - simpl. split; [reflexivity|]. discriminate.
Qed.

(** X7. The history that [richardson_debug] hands back holds one entry
    more than the counter [kit], and its last entry is the norm of the
    residual [B - A(x)] of the very iterate that is handed back. *)
Theorem richardson_debug_history sol :
  richardson_debug Afun B x0 rank tol par norm = Ok sol ->
  exists h Ax,
    sol_norm_res sol = NormList h /\
    length h = S (sol_kit sol) /\
    Afun (sol_x sol) = Ok Ax /\
    last h = Some (ri_norm norm (tsub B Ax)).
Proof.
  unfold richardson_debug. intros E.
  apply bind_Ok in E. destruct E as (omega & _ & E).
  unfold richardson_debug_run in E.
  apply bind_Ok in E. destruct E as (r & Ew & E).
  apply bind_Ok in E. destruct E as (Ax & EA & [= <-]). simpl.
  apply rd_loop_shape in Ew. destruct Ew as [Hlen _].
  eexists. exists Ax. split; [reflexivity|].
  split; [rewrite length_app, Hlen; simpl; lia|].
  split; [exact EA|]. apply last_snoc.
Qed.

(** X8. No solver begins a pass at or beyond [par['maxiter']]: a result
    of [minimal_residual], [richardson] or [richardson_debug] whose
    counter is [k + 1] was made with a number for [par['maxiter']] that
    is above [k]. *)
Theorem iteration_budget sol k :
  sol_kit sol = S k ->
  minimal_residual Afun B x0 rank tol par norm = Ok sol \/
  richardson Afun B x0 rank tol par norm = Ok sol \/
  richardson_debug Afun B x0 rank tol par norm = Ok sol ->
  exists m q, getitem par "maxiter" = Ok m /\ as_number m = Some q /\
    inject_Z (Z.of_nat k) < q.
Proof.
  intros Ek [E | [E | E]].
  - apply minimal_residual_Ok_inv in E.
    destruct E as (s & Hreach & [(_ & ->) | (Hg & s' & Eb & ->)]); simpl in Ek.
    + eapply mr_reachable_budget; eauto.
    + apply mr_iter_Break in Eb. destruct Eb as (Ek' & _).
      rewrite Ek' in Ek. injection Ek as <-.
      apply loop_guard_true in Hg. exact Hg.
  - apply richardson_Ok_inv in E.
    destruct E as (omega & s & _ & Hreach & [(_ & ->) | (Hg & s' & Eb & ->)]);
      simpl in Ek.
    + eapply ri_reachable_budget; eauto.
    + apply ri_iter_Break in Eb. destruct Eb as (Ax & dc & _ & _ & _ & ->).
      simpl in Ek. injection Ek as <-.
      apply loop_guard_true in Hg. exact Hg.
  - unfold richardson_debug in E.
    apply bind_Ok in E. destruct E as (omega & _ & E).
    unfold richardson_debug_run in E.
    apply bind_Ok in E. destruct E as (r & Ew & E).
    apply bind_Ok in E. destruct E as (Ax & EA & [= <-]). simpl in Ek.
    apply rd_loop_shape in Ew. destruct Ew as [_ Hb]. auto.
Qed.

End RichardsonDebugMore.

(** ** Subscripts and local variables *)

Section Safety.

Context {T : Type} `{TensorOps T}.
Variable Afun : T -> outcome T.
Variable B : T.
Variable x0 : option T.
Variable rank : option nat.
Variable tol : option Q.
Variable par : option (gmap string pyval).
Variable norm : option (T -> Q).

(** The test [norm_res > res['norm_res'][res['kit']-1]] on a history of
    [kit] entries (the counter already incremented) raises nothing. *)
Lemma divcrit_test_in_bounds dc (h : list Q) kit a (e : exn) :
  length h = S kit ->
  py_and dc (let* prev := hist_index h (S kit - 1) in Ok (Qltb prev a)) <> Raise e.
Proof.
  intros Hlen. unfold py_and. destruct (truthy dc); [|discriminate].
  destruct (nonempty_last _ _ Hlen) as (prev & Hl).
  rewrite (hist_index_last _ _ _ Hlen Hl). discriminate.
Qed.

(** X9. The subscripts that [richardson] and [minimal_residual] apply to
    the residual history are always within its bounds: neither solver
    raises [IndexError], unless the operator does. *)
Theorem history_subscripts_in_bounds :
  (forall x, Afun x <> Raise IndexError) ->
  richardson Afun B x0 rank tol par norm <> Raise IndexError /\
  minimal_residual Afun B x0 rank tol par norm <> Raise IndexError.
Proof.
  intros HA. split.
  - unfold richardson. intros E.
    apply bind_Raise in E. destruct E as [E | (omega & _ & E)].
    { unfold richardson_omega in E.
      apply bind_Raise in E. destruct E as [E | (alpha & _ & E)].
      - apply getitem_raises in E. destruct E; discriminate.
      - destruct alpha; simpl in E; try discriminate.
        apply pydiv_raises in E. discriminate. }
    unfold richardson_run in E.
    apply bind_Raise in E. destruct E as [E | (s & _ & E)]; [|discriminate].
    revert E.
    apply (while_raises_inv _ _ (fun s : ri_state T => length (ri_hist s) = S (ri_kit s))).
    + intros s _ E. apply loop_guard_raises in E. destruct E; discriminate.
    + intros s Hlen _ E. unfold ri_iter in E.
      apply bind_Raise in E. destruct E as [E | (Ax & _ & E)]; [exact (HA _ E)|].
      apply bind_Raise in E. destruct E as [E | (dc & _ & E)].
      { apply getitem_raises in E. destruct E; discriminate. }
      apply bind_Raise in E. destruct E as [E | (diverging & _ & E)].
      * exact (divcrit_test_in_bounds _ _ _ _ _ Hlen E).
      * destruct diverging; discriminate.
    + intros s s' Hlen _ E. apply ri_iter_Ok in E.
      destruct E as (Ax & dc & diverging & _ & _ & _ & E).
      destruct diverging; [discriminate|].
      injection E as ->. simpl. rewrite length_app, Hlen. simpl. lia.
    + reflexivity.
  - unfold minimal_residual. intros E.
    apply bind_Raise in E. destruct E as [E | (s0 & E0 & E)].
    { unfold mr_init in E.
      apply bind_Raise in E. destruct E as [E | (Ax & _ & E)]; [exact (HA _ E)|].
      apply bind_Raise in E. destruct E as [E | (beta & _ & E)]; [exact (HA _ E)|].
      discriminate. }
    apply bind_Raise in E. destruct E as [E | (s & _ & E)]; [|discriminate].
    revert E.
    apply (while_raises_inv _ _ (fun s : mr_state T => length (mr_hist s) = S (mr_kit s))).
    + intros s _ E. apply loop_guard_raises in E. destruct E; discriminate.
    + intros s Hlen _ E. unfold mr_iter in E.
      apply bind_Raise in E. destruct E as [E | (omega & _ & E)].
      { unfold mr_omega in E.
        apply bind_Raise in E. destruct E as [E | (ao & _ & E)].
        - apply getitem_raises in E. destruct E; discriminate.
        - destruct (truthy ao); [apply pydiv_raises in E; discriminate|].
          apply bind_Raise in E. destruct E as [E | (om & _ & E)].
          + apply pydiv_raises in E. discriminate.
          + destruct (Qltb (Qabs om) (1 # 10)); [|discriminate].
            apply pydiv_raises in E. discriminate. }
      apply bind_Raise in E. destruct E as [E | (residuum & _ & E)].
      { destruct (S (mr_kit s) mod 10 =? 0)%nat; [|discriminate].
        apply bind_Raise in E. destruct E as [E | (Ax & _ & E)]; [|discriminate].
        exact (HA _ E). }
      apply bind_Raise in E. destruct E as [E | (dc & _ & E)].
      { apply getitem_raises in E. destruct E; discriminate. }
      apply bind_Raise in E. destruct E as [E | (diverging & _ & E)].
      * exact (divcrit_test_in_bounds _ _ _ _ _ Hlen E).
      * destruct diverging; [discriminate|].
        apply bind_Raise in E. destruct E as [E | (beta & _ & E)]; [|discriminate].
        exact (HA _ E).
    + intros s s' Hlen _ E. apply mr_iter_Ok in E.
      destruct E as (omega & residuum & dc & diverging & _ & _ & _ & _ & E).
      destruct diverging; [discriminate|].
      destruct E as (beta & _ & [= ->]). simpl.
      rewrite length_app, Hlen. simpl. lia.
    + unfold mr_init in E0.
      apply bind_Ok in E0. destruct E0 as (Ax & _ & E0).
      apply bind_Ok in E0. destruct E0 as (beta & _ & E0).
      apply bind_Ok in E0. destruct E0 as (norm_res & _ & [= <-]). reflexivity.
Qed.

(** X10. The loop of [cheby2TERM] reads [w] only after a pass has
    assigned it: the call never raises [UnboundLocalError], unless the
    operator or the callback does. *)
Theorem cheby2TERM_w_bound (callback : option (T -> outcome unit)) :
  (forall x, Afun x <> Raise UnboundLocalError) ->
  (forall cb x, callback = Some cb -> cb x <> Raise UnboundLocalError) ->
  cheby2TERM Afun B x0 rank tol par callback <> Raise UnboundLocalError.
Proof.
  intros HA Hcb. unfold cheby2TERM. intros E.
  apply bind_Raise in E. destruct E as [E | ([par' Egv] & _ & E)].
  { apply cheby_params_raises in E. discriminate. }
  apply bind_Raise in E. destruct E as [E | ([[[x r] r0] hist] & _ & E)].
  { unfold cheby_init in E.
    apply bind_Raise in E. destruct E as [E | (Ib & _ & E)].
    { apply pydiv_raises in E. discriminate. }
    apply bind_Raise in E. destruct E as [E | (Ax & _ & E)]; [|discriminate].
    exact (HA _ E). }
  apply bind_Raise in E. destruct E as [E | (a & _ & E)].
  { apply hist_index_raises in E. discriminate. }
  apply bind_Raise in E. destruct E as [E | (t & _ & E)].
  { apply getitem_raises in E. destruct E; discriminate. }
  apply bind_Raise in E. destruct E as [E | (early & _ & E)].
  { apply py_lt_raises in E. discriminate. }
  destruct early; [discriminate|].
  unfold cheby_run in E.
  apply bind_Raise in E. destruct E as [E | ([d c] & _ & E)].
  { apply cheby_dc_raises in E. destruct E; discriminate. }
  apply bind_Raise in E. destruct E as [E | (s & _ & E)].
  - revert E.
    apply (while_raises_inv _ _
             (fun s : cheby_state T => (1 <= ch_kit s)%nat -> ch_w s <> None)).
    + intros s _ E. unfold cheby_guard in E.
      apply bind_Raise in E. destruct E as [E | (a' & _ & E)].
      * apply hist_index_raises in E. discriminate.
      * apply loop_guard_raises in E. destruct E; discriminate.
    + intros s Hw _ E. unfold cheby_iter in E.
      apply bind_Raise in E. destruct E as [E | ([p w] & _ & E)].
      { unfold cheby_coeffs in E.
        destruct (S (ch_kit s) =? 1)%nat eqn:K1;
          [|destruct (S (ch_kit s) =? 2)%nat eqn:K2].
        - apply bind_Raise in E. destruct E as [E | (? & _ & E)]; [|discriminate].
          apply pydiv_raises in E. discriminate.
        - repeat (apply bind_Raise in E; destruct E as [E | (? & _ & E)];
                  [apply pydiv_raises in E; discriminate|]).
          discriminate.
        - apply Nat.eqb_neq in K1.
          destruct (ch_w s) as [w0|] eqn:Ew; [|apply Hw; [lia|reflexivity]].
          simpl in E.
          apply bind_Raise in E. destruct E as [E | (? & _ & E)]; [|discriminate].
          apply pydiv_raises in E. discriminate. }
      apply bind_Raise in E. destruct E as [E | (Ax & _ & E)]; [exact (HA _ E)|].
      apply bind_Raise in E. destruct E as [E | (Ir0 & _ & E)].
      { apply pydiv_raises in E. discriminate. }
      apply bind_Raise in E. destruct E as [E | (u & _ & E)]; [|discriminate].
      destruct callback as [cb|]; [|discriminate].
      exact (Hcb cb _ eq_refl E).
    + intros s s' _ _ E. unfold cheby_iter in E.
      apply bind_Ok in E. destruct E as ([p w] & _ & E).
      apply bind_Ok in E. destruct E as (Ax & _ & E).
      apply bind_Ok in E. destruct E as (Ir0 & _ & E).
      apply bind_Ok in E. destruct E as (u & _ & [= <-]). simpl. discriminate.
    + simpl. lia.
  - apply bind_Raise in E. destruct E as [E | (msg & _ & E)]; [|discriminate].
    unfold cheby_report in E.
    apply bind_Raise in E. destruct E as [E | (t' & _ & E)].
    { apply getitem_raises in E. destruct E; discriminate. }
    apply bind_Raise in E. destruct E as [E | (b & _ & E)]; [|discriminate].
    unfold py_lt_list in E. destruct t'; try discriminate.
    apply list_lt_raises in E. discriminate.
Qed.

End Safety.

(** ** Calls that go through, and calls that cannot *)

Section Outcomes.

Context {T : Type} `{TensorOps T}.
Variable Afun : T -> outcome T.
Variable B : T.
Variable x0 : option T.
Variable rank : option nat.
Variable tol : option Q.
Variable par : option (gmap string pyval).
Variable norm : option (T -> Q).

Lemma ri_guard_Ok_numbers t qt m qm (s : ri_state T) :
  getitem par "tol" = Ok t -> as_number t = Some qt ->
  getitem par "maxiter" = Ok m -> as_number m = Some qm ->
  exists g, ri_guard par s = Ok g.
Proof.
  intros Et Eqt Em Eqm. unfold ri_guard, loop_guard, py_gt, py_lt.
  rewrite Et. cbn [bind]. rewrite Eqt. cbn [bind].
  destruct (Qltb qt (ri_norm_res s)); [|eauto].
  rewrite Em. cbn [bind]. rewrite Eqm. eauto.
Qed.

Lemma richardson_debug_run_succeeds omega t qt m qm :
  (forall x, exists y, Afun x = Ok y) ->
  getitem par "tol" = Ok t -> as_number t = Some qt ->
  getitem par "maxiter" = Ok m -> as_number m = Some qm ->
  exists sol, richardson_debug_run Afun B x0 rank tol par norm omega = Ok sol.
Proof.
  intros HA Et Eqt Em Eqm. unfold richardson_debug_run.
  destruct (while_succeeds (ri_guard par) (rd_iter Afun B rank tol (ri_norm norm) omega)
              (fun _ => True) ri_kit (maxiter_fuel par))
    with (fuel := maxiter_fuel par)
         (s := mkRI 0 [] (truncate rank tol (initial_guess x0 (tscale B omega)))
                 1000000000000000) as (r & Er).
  - intros s _. eapply ri_guard_Ok_numbers; eauto.
  - intros s _ _. unfold rd_iter. destruct (HA (ri_x s)) as (Ax & ->).
    cbn [bind]. eauto.
  - intros s. apply loop_guard_bound.
  - intros s s' E. apply rd_iter_Ok in E. destruct E as (Ax & _ & [= ->]). reflexivity.
  - exact I.
  - simpl. lia.
  - rewrite Er. cbn [bind]. destruct (HA (ri_x r)) as (Ax & ->). cbn [bind]. eauto.
Qed.

(** X11. With a float other than zero for [par['alpha']], numbers for
    [par['tol']] and [par['maxiter']] and an operator that raises nothing,
    [richardson_debug] hands back a result; so does [richardson] when
    [par['divcrit']] is there too. Nothing else in these two solvers can
    fail. *)
Theorem richardson_well_formed a t qt m qm :
  (forall x, exists y, Afun x = Ok y) ->
  getitem par "alpha" = Ok (PyFloat a) -> ~ a == 0 ->
  getitem par "tol" = Ok t -> as_number t = Some qt ->
  getitem par "maxiter" = Ok m -> as_number m = Some qm ->
  (exists sol, richardson_debug Afun B x0 rank tol par norm = Ok sol) /\
  (forall dc, getitem par "divcrit" = Ok dc ->
     exists sol, richardson Afun B x0 rank tol par norm = Ok sol).
Proof.
  intros HA Ea Ha Et Eqt Em Eqm.
  assert (Eo : richardson_omega par = Ok (1 / a)).
  { apply richardson_omega_Ok. eauto. }
  unfold richardson_debug, richardson. rewrite Eo. cbn [bind]. split.
  - eapply richardson_debug_run_succeeds; eauto.
  - intros dc Ed. eapply richardson_run_succeeds; eauto.
Qed.

(** X12. [minimal_residual], [richardson] and [richardson_debug] have no
    default for [par['tol']]: when the subscript fails (a missing key, or
    [par] left at [None]), the call fails in the same way at the first
    test of the loop guard, before any pass. *)
Theorem tolerance_required (e : exn) :
  getitem par "tol" = Raise e ->
  (forall omega, richardson_omega par = Ok omega ->
     richardson Afun B x0 rank tol par norm = Raise e /\
     richardson_debug Afun B x0 rank tol par norm = Raise e) /\
  (forall s0, mr_init Afun B x0 norm = Ok s0 ->
     minimal_residual Afun B x0 rank tol par norm = Raise e).
Proof.
  intros Et. split.
  - intros omega Eo. unfold richardson, richardson_debug. rewrite Eo. cbn [bind].
    unfold richardson_run, richardson_debug_run. split.
    + rewrite while_guard_raises with (e := e); [reflexivity|].
      apply loop_guard_no_tol. exact Et.
    + rewrite while_guard_raises with (e := e); [reflexivity|].
      apply loop_guard_no_tol. exact Et.
  - intros s0 E0. unfold minimal_residual. rewrite E0. cbn [bind].
    rewrite while_guard_raises with (e := e); [reflexivity|].
    apply loop_guard_no_tol. exact Et.
Qed.

End Outcomes.

(** ** cheby2TERM: parameters and results *)

(** X16. The defaults of [cheby2TERM] never override the caller: with
    ['eigrange'] given, every entry of the caller's dictionary is kept,
    ['tol'] and ['maxiter'] are the caller's where given and [1e-06] and
    [1e7] otherwise, and no other key is added. *)
Theorem cheby_params_defaults (m par' : gmap string pyval) (Egv : pyval) :
  cheby_params (Some m) = Ok (par', Egv) ->
  m !! "eigrange" = Some Egv /\
  (forall k v, m !! k = Some v -> par' !! k = Some v) /\
  par' !! "tol" = Some (default (PyFloat (1 # 1000000)) (m !! "tol")) /\
  par' !! "maxiter" = Some (default (PyFloat 10000000) (m !! "maxiter")) /\
  (forall k, k <> "tol"%string -> k <> "maxiter"%string -> par' !! k = m !! k).
Proof.
  intros E.
  assert (Hother : forall k, k <> "tol"%string -> k <> "maxiter"%string ->
                     par' !! k = m !! k).
  { intros k Ht Hm. unfold cheby_params in E.
    match type of E with context [?m' !! "eigrange"] => destruct (m' !! "eigrange") end;
      [|discriminate].
    injection E as <- _.
    rewrite !lookup_setdefault_ne by congruence. reflexivity. }
  assert (Htol : par' !! "tol" = Some (default (PyFloat (1 # 1000000)) (m !! "tol"))).
  { unfold cheby_params in E.
    match type of E with context [?m' !! "eigrange"] => destruct (m' !! "eigrange") end;
      [|discriminate].
    injection E as <- _.
    rewrite lookup_setdefault_ne by discriminate. apply lookup_setdefault. }
  assert (Hmax : par' !! "maxiter"
                 = Some (default (PyFloat 10000000) (m !! "maxiter"))).
  { unfold cheby_params in E.
    match type of E with context [?m' !! "eigrange"] => destruct (m' !! "eigrange") end;
      [|discriminate].
    injection E as <- _.
    rewrite lookup_setdefault.
    rewrite lookup_setdefault_ne by discriminate. reflexivity. }
  split; [|split; [|auto]].
  - apply cheby_params_Ok in E. destruct E as (Ee & _).
    rewrite Hother in Ee by discriminate. exact Ee.
  - intros k v Ek.
    destruct (decide (k = "tol"%string)) as [->|Ht].
    { rewrite Htol, Ek. reflexivity. }
    destruct (decide (k = "maxiter"%string)) as [->|Hm].
    { rewrite Hmax, Ek. reflexivity. }
    rewrite Hother by assumption. exact Ek.
Qed.

Section ChebyMore.

Context {T : Type} `{TensorOps T}.
Variable Afun : T -> outcome T.
Variable B : T.
Variable x0 : option T.
Variable rank : option nat.
Variable tol : option Q.
Variable callback : option (T -> outcome unit).

(** X14. [cheby2TERM] hands back a result only through its early return:
    the norm of [B] is not zero, the operator has been applied once, to
    the initial guess, the first normalised residual is below
    [par['tol']], and the result is the initial guess with a history of
    that one residual, a counter of [0] and nothing printed. *)
Theorem cheby2TERM_result_is_early par sol :
  cheby2TERM Afun B x0 rank tol par callback = Ok sol ->
  exists par' Egv t q Ax,
    cheby_params par = Ok (par', Egv) /\
    par' !! "tol" = Some t /\ as_number t = Some q /\
    ~ tnorm B == 0 /\
    Afun (initial_guess x0 B) = Ok Ax /\
    1 / tnorm B * tnorm (tsub B Ax) < q /\
    sol = mkSolution (initial_guess x0 B)
            (NormList [1 / tnorm B * tnorm (tsub B Ax)]) 0 [].
Proof.
  intros E.
  destruct (cheby2TERM_Ok_early _ _ _ _ _ _ _ _ E) as (Hk & Hp & _).
  unfold cheby2TERM in E.
  apply bind_Ok in E. destruct E as ([par' Egv] & Ep & E).
  apply bind_Ok in E. destruct E as ([[[x r] r0] hist] & Ei & E).
  apply bind_Ok in E. destruct E as (a & Ea & E).
  apply bind_Ok in E. destruct E as (t & Et & E).
  apply bind_Ok in E. destruct E as (early & Ee & E).
  unfold cheby_init in Ei.
  apply bind_Ok in Ei. destruct Ei as (Ib & EIb & Ei).
  apply bind_Ok in Ei. destruct Ei as (Ax & EA & [= <- <- <- <-]).
  apply pydiv_Ok in EIb. destruct EIb as (Hnz & ->).
  simpl in Ea. injection Ea as <-.
  apply py_lt_Ok in Ee. destruct Ee as (q & Eq & ->).
  simpl in Et. destruct (par' !! "tol") as [t'|] eqn:Et'; [|discriminate].
  injection Et as ->.
  destruct (Qltb (1 / tnorm B * tnorm (tsub B Ax)) q) eqn:El.
  - injection E as <-. apply Qltb_lt in El.
    exists par', Egv, t, q, Ax. repeat split; auto.
  - exfalso. unfold cheby_run in E.
    apply bind_Ok in E. destruct E as ([d c] & _ & E).
    apply bind_Ok in E. destruct E as (s & _ & E).
    apply bind_Ok in E. destruct E as (msg & _ & [= <-]).
    simpl in Hp. discriminate.
Qed.

(** X15. A spectral range that is symmetric about zero makes [d = 0]:
    when the first normalised residual is above the tolerance and
    [par['maxiter']] is positive, the first pass divides by [d] and
    [cheby2TERM] ends in [ZeroDivisionError]. *)
Theorem cheby2TERM_zero_centre par par' Egv d c t qt m qm Ax :
  cheby_params par = Ok (par', Egv) ->
  cheby_dc Egv = Ok (d, c) -> d == 0 ->
  par' !! "tol" = Some t -> as_number t = Some qt ->
  par' !! "maxiter" = Some m -> as_number m = Some qm ->
  ~ tnorm B == 0 ->
  Afun (initial_guess x0 B) = Ok Ax ->
  qt < 1 / tnorm B * tnorm (tsub B Ax) ->
  0 < qm ->
  cheby2TERM Afun B x0 rank tol par callback = Raise ZeroDivisionError.
Proof.
  intros Ep Edc Hd Et Eqt Em Eqm Hnz EA Hres Hmax.
  set (a := 1 / tnorm B * tnorm (tsub B Ax)) in *.
  assert (Hg : loop_guard (Some par') a 0 = Ok true).
  { unfold loop_guard, py_gt, py_lt. simpl. rewrite Et. cbn [bind]. rewrite Eqt.
    cbn [bind]. apply Qltb_lt in Hres. rewrite Hres.
    rewrite Em. cbn [bind]. rewrite Eqm.
    change (inject_Z (Z.of_nat 0)) with 0.
    apply Qltb_lt in Hmax. rewrite Hmax. reflexivity. }
  unfold cheby2TERM. rewrite Ep. cbn [bind].
  unfold cheby_init. rewrite (pydiv_nonzero _ _ Hnz). cbn [bind].
  rewrite EA. cbn [bind]. fold a.
  change (hist_index [a] 0) with (Ok a). cbn [bind].
  simpl getitem. rewrite Et. cbn [bind].
  unfold py_lt at 1. rewrite Eqt. cbn [bind].
  assert (Hnot : Qltb a qt = false).
  { apply Qltb_ge. apply Qlt_le_weak. exact Hres. }
  rewrite Hnot.
  unfold cheby_run. rewrite Edc. cbn [bind].
  pose proof (loop_guard_bound _ _ _ Hg) as Hfuel.
  destruct (maxiter_fuel (Some par')) as [|fuel]; [lia|].
  rewrite while_body_raises with (e := ZeroDivisionError); [reflexivity| |].
  - unfold cheby_guard. simpl ch_hist. simpl ch_kit.
    change (hist_index [a] 0) with (Ok a). cbn [bind]. exact Hg.
  - unfold cheby_iter. simpl ch_kit. simpl ch_w.
    unfold cheby_coeffs. simpl Nat.eqb.
    rewrite (pydiv_zero _ _ Hd). reflexivity.
Qed.

End ChebyMore.

(** ** The keys a solver reads *)

Section KeysRead.

Context {T : Type} `{TensorOps T}.
Variable Afun : T -> outcome T.
Variable B : T.
Variable x0 : option T.
Variable rank : option nat.
Variable tol : option Q.
Variable norm : option (T -> Q).

Variables m m' : gmap string pyval.
Hypothesis same_tol : m !! "tol" = m' !! "tol".
Hypothesis same_maxiter : m !! "maxiter" = m' !! "maxiter".

Lemma getitem_same k : m !! k = m' !! k -> getitem (Some m) k = getitem (Some m') k.
Proof. intros E. unfold getitem. rewrite E. reflexivity. Qed.

Lemma loop_guard_same a kit : loop_guard (Some m) a kit = loop_guard (Some m') a kit.
Proof.
  unfold loop_guard.
  rewrite (getitem_same "tol" same_tol), (getitem_same "maxiter" same_maxiter).
  reflexivity.
Qed.

Lemma maxiter_fuel_same : maxiter_fuel (Some m) = maxiter_fuel (Some m').
Proof. unfold maxiter_fuel. rewrite same_maxiter. reflexivity. Qed.

(** X17. A solver reads no key of [par] but its own: two dictionaries
    that agree on ['tol'] and ['maxiter'] give the same outcome in
    [richardson_debug] when they agree on ['alpha'], in [richardson] when
    they agree on ['alpha'] and ['divcrit'], and in [minimal_residual]
    when they agree on ['approx_omega'] and ['divcrit']. In particular
    [richardson_debug] pays no heed to ['divcrit']. *)
Theorem solvers_read_their_keys :
  (m !! "alpha" = m' !! "alpha" ->
   richardson_debug Afun B x0 rank tol (Some m) norm
     = richardson_debug Afun B x0 rank tol (Some m') norm) /\
  (m !! "alpha" = m' !! "alpha" -> m !! "divcrit" = m' !! "divcrit" ->
   richardson Afun B x0 rank tol (Some m) norm
     = richardson Afun B x0 rank tol (Some m') norm) /\
  (m !! "approx_omega" = m' !! "approx_omega" -> m !! "divcrit" = m' !! "divcrit" ->
   minimal_residual Afun B x0 rank tol (Some m) norm
     = minimal_residual Afun B x0 rank tol (Some m') norm).
Proof.
  split; [|split].
  - intros Ea. unfold richardson_debug, richardson_omega.
    rewrite (getitem_same "alpha" Ea).
    destruct (getitem (Some m') "alpha") as [alpha| |]; try reflexivity. cbn [bind].
    destruct (is_float alpha); [|reflexivity].
    destruct (as_number alpha) as [a|]; [|reflexivity].
    destruct (pydiv 1 a) as [omega| |]; try reflexivity. cbn [bind].
    unfold richardson_debug_run. rewrite maxiter_fuel_same.
    rewrite (while_ext (ri_guard (Some m)) (ri_guard (Some m')) _
               (rd_iter Afun B rank tol (ri_norm norm) omega)); auto.
    intros s. apply loop_guard_same.
  - intros Ea Ed. unfold richardson, richardson_omega.
    rewrite (getitem_same "alpha" Ea).
    destruct (getitem (Some m') "alpha") as [alpha| |]; try reflexivity. cbn [bind].
    destruct (is_float alpha); [|reflexivity].
    destruct (as_number alpha) as [a|]; [|reflexivity].
    destruct (pydiv 1 a) as [omega| |]; try reflexivity. cbn [bind].
    unfold richardson_run. rewrite maxiter_fuel_same.
    rewrite (while_ext (ri_guard (Some m)) (ri_guard (Some m'))
               (ri_iter Afun B rank tol (Some m) (ri_norm norm)
                  (const_field (ri_x (ri_init B x0 (ri_norm norm) omega))) omega)
               (ri_iter Afun B rank tol (Some m') (ri_norm norm)
                  (const_field (ri_x (ri_init B x0 (ri_norm norm) omega))) omega));
      auto.
    + intros s. apply loop_guard_same.
    + intros s. unfold ri_iter. rewrite (getitem_same "divcrit" Ed). reflexivity.
  - intros Ea Ed. unfold minimal_residual.
    destruct (mr_init Afun B x0 norm) as [s0| |]; try reflexivity. cbn [bind].
    rewrite maxiter_fuel_same.
    rewrite (while_ext (mr_guard (Some m)) (mr_guard (Some m'))
               (mr_iter Afun B rank tol (Some m) (mr_norm norm) (const_field (mr_x s0)))
               (mr_iter Afun B rank tol (Some m') (mr_norm norm) (const_field (mr_x s0))));
      auto.
    + intros s. apply loop_guard_same.
    + intros s. unfold mr_iter, mr_omega.
      rewrite (getitem_same "approx_omega" Ea), (getitem_same "divcrit" Ed).
      reflexivity.
Qed.

End KeysRead.

(** ** Further runs on the two-point grid *)

(** [richardson] with [alpha = 0.5]: the second pass ends in [break]. *)
Lemma richardson_history_shape_witness :
  exists h,
    NormList [2; 2] = NormList h /\
    h !! 0%nat = Some (ri_norm None ((1, -1) : vec)) /\
    (length h = 3%nat \/
     (length h = 2%nat /\
      exists dc,
        getitem (Some (ri_par (1 # 100) 6 (PyFloat (1 # 2)) true)) "divcrit" = Ok dc /\
        truthy dc = true)).
Proof.
  refine (richardson_history_shape (diag 1 3) (1, -1) (Some (0, 0)) None None
           (Some (ri_par (1 # 100) 6 (PyFloat (1 # 2)) true)) None
           (mkSolution (2, -2) (NormList [2; 2]) 2 [])
           _);
    try (vm_compute; reflexivity); simpl; lia.
Defined.

(** [richardson] with [alpha = 1.0]: six passes, all recorded. *)
Lemma richardson_history_lags_witness :
  exists omega (x' Ax' : vec),
    richardson_omega (Some (ri_par (1 # 100) 6 (PyFloat 1) true)) = Ok omega /\
    diag 1 3 x' = Ok Ax' /\
    last [2; 2; 2; 2; 2; 2; 2] = Some (ri_norm None (tsub (1, -1) Ax')) /\
    ((0, 0) : vec) =
      mean_correct None None (const_field (initial_guess (Some (0, 0)) (tscale (1, -1) omega)))
        (tadd x' (tscale (tsub (1, -1) Ax') omega)).
Proof.
  refine (richardson_history_lags (diag 1 3) (1, -1) (Some (0, 0)) None None
           (Some (ri_par (1 # 100) 6 (PyFloat 1) true)) None
           (mkSolution (0, 0) (NormList [2; 2; 2; 2; 2; 2; 2]) 6 [])
           [2; 2; 2; 2; 2; 2; 2]
           _ eq_refl eq_refl _);
    try (vm_compute; reflexivity); simpl; lia.
Defined.


(** [minimal_residual] with the exact step size: three passes reach a
    residual of norm zero. *)
Lemma minres_history_shape_witness :
  exists h (Ax : vec),
    NormList [2; 1; 1 # 2; 0] = NormList h /\
    diag 1 3 (initial_guess (Some (0, 0)) (1, -1)) = Ok Ax /\
    h !! 0%nat = Some (mr_norm None (tsub (1, -1) Ax)) /\
    (length h = 4%nat \/
     (length h = 3%nat /\
      exists dc,
        getitem (Some (mr_par (1 # 100) 3 false true)) "divcrit" = Ok dc /\
        truthy dc = true)).
Proof.
  refine (minres_history_shape (diag 1 3) (1, -1) (Some (0, 0)) None None
           (Some (mr_par (1 # 100) 3 false true)) None
           (mkSolution (2 # 3, -2 # 3) (NormList [2; 1; 1 # 2; 0]) 3 [])
           _);
    try (vm_compute; reflexivity); simpl; lia.
Defined.


(** [minimal_residual] with the approximate step size and no divergence
    test: the norms carried along halve at each pass, and the tenth,
    computed afresh, is [341/256]. *)
Lemma minres_exact_every_tenth_witness :
  exists Ax : vec,
    diag 1 3 (341 # 512, -341 # 512) = Ok Ax /\
    last [2; 1; 1 # 2; 1 # 4; 1 # 8; 1 # 16; 1 # 32; 1 # 64; 1 # 128; 1 # 256; 341 # 256]
      = Some (mr_norm None (tsub (1, -1) Ax)).
Proof.
  refine (minres_exact_every_tenth (diag 1 3) (1, -1) (Some (0, 0)) None None
           (Some (mr_par (1 # 100000) 10 true false)) None
           (mkSolution (341 # 512, -341 # 512)
              (NormList [2; 1; 1 # 2; 1 # 4; 1 # 8; 1 # 16; 1 # 32; 1 # 64; 1 # 128;
                         1 # 256; 341 # 256]) 10 [])
           [2; 1; 1 # 2; 1 # 4; 1 # 8; 1 # 16; 1 # 32; 1 # 64; 1 # 128; 1 # 256; 341 # 256]
           _ eq_refl eq_refl
           _ eq_refl);
    try (vm_compute; reflexivity); simpl; lia.
Defined.

(** [richardson_debug] with [alpha = 4.0] and a budget of three passes. *)
Lemma richardson_debug_history_witness :
  exists h (Ax : vec),
    NormList [2; 1; 5 # 8; 7 # 16] = NormList h /\
    length h = 4%nat /\
    diag 1 3 (37 # 64, -21 # 64) = Ok Ax /\
    last h = Some (ri_norm None (tsub (1, -1) Ax)).
Proof.
  refine (richardson_debug_history (diag 1 3) (1, -1) (Some (0, 0)) None None
           (Some (ri_par (1 # 100) 3 (PyFloat 4) true)) None
           (mkSolution (37 # 64, -21 # 64) (NormList [2; 1; 5 # 8; 7 # 16]) 3 [])
           _);
    try (vm_compute; reflexivity); simpl; lia.
Defined.

Lemma iteration_budget_witness :
  exists m q,
    getitem (Some (ri_par (1 # 100) 3 (PyFloat 4) true)) "maxiter" = Ok m /\
    as_number m = Some q /\ inject_Z (Z.of_nat 2) < q.
Proof.
  refine (iteration_budget (diag 1 3) (1, -1) (Some (0, 0)) None None
           (Some (ri_par (1 # 100) 3 (PyFloat 4) true)) None
           (mkSolution (37 # 64, -21 # 64) (NormList [2; 1; 5 # 8; 7 # 16]) 3 []) 2%nat
           eq_refl
           (or_intror (or_intror _)));
    try (vm_compute; reflexivity); simpl; lia.
Defined.

Lemma history_subscripts_in_bounds_witness :
  richardson (diag 1 3) (1, -1) (Some (0, 0)) None None
    (Some (ri_par (1 # 100) 6 (PyFloat (1 # 2)) true)) None <> Raise IndexError /\
  minimal_residual (diag 1 3) (1, -1) (Some (0, 0)) None None
    (Some (ri_par (1 # 100) 6 (PyFloat (1 # 2)) true)) None <> Raise IndexError.
Proof.
  refine (history_subscripts_in_bounds (diag 1 3) (1, -1) (Some (0, 0)) None None
            (Some (ri_par (1 # 100) 6 (PyFloat (1 # 2)) true)) None _).
  intros x. discriminate.
Defined.

Lemma cheby2TERM_w_bound_witness :
  cheby2TERM (diag 1 3) (1, -1) (Some (0, 0)) None None
    (Some (cheby_par (1 # 100) 5 1 3)) None <> Raise UnboundLocalError.
Proof.
  refine (cheby2TERM_w_bound (diag 1 3) (1, -1) (Some (0, 0)) None None
            (Some (cheby_par (1 # 100) 5 1 3)) None _ _).
  - intros x. discriminate.
  - intros cb x. discriminate.
Defined.

Lemma richardson_well_formed_witness :
  (exists sol,
     richardson_debug (diag 1 3) (1, -1) (Some (0, 0)) None None
       (Some (ri_par (1 # 100) 3 (PyFloat 4) true)) None = Ok sol) /\
  (forall dc,
     getitem (Some (ri_par (1 # 100) 3 (PyFloat 4) true)) "divcrit" = Ok dc ->
     exists sol,
       richardson (diag 1 3) (1, -1) (Some (0, 0)) None None
         (Some (ri_par (1 # 100) 3 (PyFloat 4) true)) None = Ok sol).
Proof.
  refine (richardson_well_formed (diag 1 3) (1, -1) (Some (0, 0)) None None
            (Some (ri_par (1 # 100) 3 (PyFloat 4) true)) None
            4 (PyFloat (1 # 100)) (1 # 100) (PyInt 3) (inject_Z 3) _ _ _ _ _ _ _);
    try reflexivity.
  - intros x. eexists. reflexivity.
  - vm_compute. discriminate.
Defined.

(** A dictionary with ['alpha'] and ['maxiter'] but no ['tol']. *)
Lemma tolerance_required_witness :
  richardson (diag 1 3) (1, -1) (Some (0, 0)) None None
    (Some (<["alpha" := PyFloat 4]> (<["maxiter" := PyInt 3]> ∅))) None = Raise KeyError /\
  richardson_debug (diag 1 3) (1, -1) (Some (0, 0)) None None
    (Some (<["alpha" := PyFloat 4]> (<["maxiter" := PyInt 3]> ∅))) None = Raise KeyError.
Proof.
  refine (proj1 (tolerance_required (diag 1 3) (1, -1) (Some (0, 0)) None None
                   (Some (<["alpha" := PyFloat 4]> (<["maxiter" := PyInt 3]> ∅))) None
                   KeyError _) (1 / 4) _);
    vm_compute; reflexivity.
Defined.

(** The identity operator and [x0 = None] again. *)
Lemma cheby2TERM_result_is_early_witness :
  exists par' Egv t q (Ax : vec),
    cheby_params (Some (cheby_par (1 # 100) 5 1 3)) = Ok (par', Egv) /\
    par' !! "tol" = Some t /\ as_number t = Some q /\
    ~ tnorm ((1, -1) : vec) == 0 /\
    diag 1 1 (initial_guess None (1, -1)) = Ok Ax /\
    1 / tnorm ((1, -1) : vec) * tnorm (tsub (1, -1) Ax) < q /\
    mkSolution ((1, -1) : vec) (NormList [0 # 2]) 0 [] =
      mkSolution (initial_guess None (1, -1))
        (NormList [1 / tnorm ((1, -1) : vec) * tnorm (tsub (1, -1) Ax)]) 0 [].
Proof.
  refine (cheby2TERM_result_is_early (diag 1 1) (1, -1) None None None None
            (Some (cheby_par (1 # 100) 5 1 3))
            (mkSolution (1, -1) (NormList [0 # 2]) 0 []) _).
  vm_compute. reflexivity.
Defined.

(** [eigrange = (-1.0, 1.0)]. *)
Lemma cheby2TERM_zero_centre_witness :
  cheby2TERM (diag 1 3) (1, -1) (Some (0, 0)) None None
    (Some (cheby_par (1 # 100) 5 (-1) 1)) None = Raise ZeroDivisionError.
Proof.
  refine (cheby2TERM_zero_centre (diag 1 3) (1, -1) (Some (0, 0)) None None None
            (Some (cheby_par (1 # 100) 5 (-1) 1)) (cheby_par (1 # 100) 5 (-1) 1)
            (PyTuple [PyFloat (-1); PyFloat 1]) ((1 + -1) / 2) ((1 - -1) / 2)
            (PyFloat (1 # 100)) (1 # 100) (PyInt 5) (inject_Z 5) (0, 0)
            _ _ _ _ _ _ _ _ _ _ _);
    try (vm_compute; reflexivity); vm_compute; discriminate.
Defined.

(** A dictionary with ['eigrange'] and ['maxiter'] but no ['tol']. *)
Lemma cheby_params_defaults_witness :
  exists par',
    cheby_params (Some (<["eigrange" := PyTuple [PyFloat 1; PyFloat 3]]>
                          (<["maxiter" := PyInt 5]> ∅)))
      = Ok (par', PyTuple [PyFloat 1; PyFloat 3]) /\
    par' !! "tol" = Some (PyFloat (1 # 1000000)) /\
    par' !! "maxiter" = Some (PyInt 5).
Proof.
  eexists. split; [vm_compute; reflexivity|].
  refine (let W := cheby_params_defaults
                     (<["eigrange" := PyTuple [PyFloat 1; PyFloat 3]]>
                        (<["maxiter" := PyInt 5]> ∅)) _ (PyTuple [PyFloat 1; PyFloat 3]) _
          in conj (proj1 (proj2 (proj2 W))) (proj1 (proj2 (proj2 (proj2 W))))).
  vm_compute. reflexivity.
Defined.

(** Two dictionaries that differ in ['divcrit'] only. *)
Lemma solvers_read_their_keys_witness :
  richardson_debug (diag 1 3) (1, -1) (Some (0, 0)) None None
    (Some (ri_par (1 # 100) 3 (PyFloat 4) true)) None
  = richardson_debug (diag 1 3) (1, -1) (Some (0, 0)) None None
      (Some (ri_par (1 # 100) 3 (PyFloat 4) false)) None.
Proof.
  refine (proj1 (solvers_read_their_keys (diag 1 3) (1, -1) (Some (0, 0)) None None None
                   (ri_par (1 # 100) 3 (PyFloat 4) true)
                   (ri_par (1 # 100) 3 (PyFloat 4) false) _ _) _);
    vm_compute; reflexivity.
Defined.

(** ** cheby2TERM: the loop and the callback *)

Section ChebyLoop.

Context {T : Type} `{TensorOps T}.
Variable Afun : T -> outcome T.
Variable B : T.
Variable x0 : option T.
Variable rank : option nat.
Variable tol : option Q.
Variable callback : option (T -> outcome unit).



(** X19. The callback is not shielded: when it raises on every iterate
    and the first pass is made (the first normalised residual is above
    the tolerance, [par['maxiter']] is positive, neither [d] nor [r0] is
    zero and the operator raises nothing), [cheby2TERM] ends in the
    exception of the callback. *)
Theorem cheby2TERM_callback_raises par par' Egv d c t qt m qm Ax cb (e : exn) :
  callback = Some cb -> (forall x, cb x = Raise e) ->
  (forall x, exists y, Afun x = Ok y) ->
  cheby_params par = Ok (par', Egv) ->
  cheby_dc Egv = Ok (d, c) -> ~ d == 0 ->
  par' !! "tol" = Some t -> as_number t = Some qt ->
  par' !! "maxiter" = Some m -> as_number m = Some qm ->
  ~ tnorm B == 0 ->
  Afun (initial_guess x0 B) = Ok Ax ->
  ~ tnorm (tsub B Ax) == 0 ->
  qt < 1 / tnorm B * tnorm (tsub B Ax) ->
  0 < qm ->
  cheby2TERM Afun B x0 rank tol par callback = Raise e.
Proof.
  intros Ecb Hcb HA Ep Edc Hd Et Eqt Em Eqm Hnz EA Hr0 Hres Hmax.
  set (a := 1 / tnorm B * tnorm (tsub B Ax)) in *.
  assert (Hg : loop_guard (Some par') a 0 = Ok true).
  { unfold loop_guard, py_gt, py_lt. simpl. rewrite Et. cbn [bind]. rewrite Eqt.
    cbn [bind]. apply Qltb_lt in Hres. rewrite Hres.
    rewrite Em. cbn [bind]. rewrite Eqm.
    change (inject_Z (Z.of_nat 0)) with 0.
    apply Qltb_lt in Hmax. rewrite Hmax. reflexivity. }
  unfold cheby2TERM. rewrite Ep. cbn [bind].
  unfold cheby_init. rewrite (pydiv_nonzero _ _ Hnz). cbn [bind].
  rewrite EA. cbn [bind]. fold a.
  change (hist_index [a] 0) with (Ok a). cbn [bind].
  simpl getitem. rewrite Et. cbn [bind].
  unfold py_lt at 1. rewrite Eqt. cbn [bind].
  assert (Hnot : Qltb a qt = false).
  { apply Qltb_ge. apply Qlt_le_weak. exact Hres. }
  rewrite Hnot.
  unfold cheby_run. rewrite Edc. cbn [bind].
  pose proof (loop_guard_bound _ _ _ Hg) as Hfuel.
  destruct (maxiter_fuel (Some par')) as [|fuel]; [lia|].
  rewrite while_body_raises with (e := e); [reflexivity| |].
  - unfold cheby_guard. simpl ch_hist. simpl ch_kit.
    change (hist_index [a] 0) with (Ok a). cbn [bind]. exact Hg.
  - unfold cheby_iter. simpl ch_kit. simpl ch_w.
    unfold cheby_coeffs. simpl Nat.eqb.
    rewrite (pydiv_nonzero _ _ Hd). cbn [bind].
    match goal with |- context [Afun ?y] => destruct (HA y) as (Ay & ->) end.
    cbn [bind]. rewrite (pydiv_nonzero _ _ Hr0). cbn [bind].
    rewrite Ecb, Hcb. reflexivity.
Qed.

End ChebyLoop.


(** A callback that always raises [ValueError]. *)
Lemma cheby2TERM_callback_raises_witness :
  cheby2TERM (diag 1 3) (1, -1) (Some (0, 0)) None None
    (Some (cheby_par (1 # 100) 5 1 3)) (Some (fun _ => Raise ValueError))
    = Raise ValueError.
Proof.
  refine (cheby2TERM_callback_raises (diag 1 3) (1, -1) (Some (0, 0)) None None
            (Some (fun _ => Raise ValueError))
            (Some (cheby_par (1 # 100) 5 1 3)) (cheby_par (1 # 100) 5 1 3)
            (PyTuple [PyFloat 1; PyFloat 3]) ((3 + 1) / 2) ((3 - 1) / 2)
            (PyFloat (1 # 100)) (1 # 100) (PyInt 5) (inject_Z 5) (0, 0)
            (fun _ => Raise ValueError) ValueError
            _ _ _ _ _ _ _ _ _ _ _ _ _ _ _);
    try reflexivity;
    try (intros x; eexists; reflexivity);
    try (vm_compute; reflexivity); vm_compute; discriminate.
Defined.
